(** * WhatsApp transcript preprocessing: a model of [wa_analyzer/preprocess.py]

    The development embeds [WhatsappPreprocessor.normalize_author],
    [WhatsappPreprocessor.process] and the dialect selection of [main] as
    Rocq functions, and states the properties of the parsing core over
    them.

    Python strings are sequences of Unicode code points; they are modelled
    as lists of [N].  The regular-expression engine, [datetime.strptime]
    and [unicodedata.normalize] are library code: the model is parametric
    in them (Section variables), and a small concrete dialect is supplied
    for the closed examples. *)

From Stdlib Require Import List NArith ZArith Bool Lia String Ascii Sorted.
From Stdlib Require Import Permutation.
Import ListNotations.

(** ** Python strings *)

Definition str := list N.

(** ASCII literals for [str]. *)
Definition of_string (s : string) : str :=
  map N_of_ascii (list_ascii_of_string s).

Definition SPACE : N := 0x20%N.

(** [str.isspace] on one code point, which is also the class [\s] of
    the [re] module on [str] patterns. *)
Definition isspace (c : N) : bool :=
  ((0x09 <=? c) && (c <=? 0x0D) || (0x1C <=? c) && (c <=? 0x20)
   || (c =? 0x85) || (c =? 0xA0) || (c =? 0x1680)
   || (0x2000 <=? c) && (c <=? 0x200A)
   || (c =? 0x2028) || (c =? 0x2029) || (c =? 0x202F)
   || (c =? 0x205F) || (c =? 0x3000))%N.

Fixpoint dropwhile {A} (p : A -> bool) (l : list A) : list A :=
  match l with
  | [] => []
  | x :: r => if p x then dropwhile p r else l
  end.

Definition lstrip (s : str) : str := dropwhile isspace s.

Fixpoint rstrip (s : str) : str :=
  match s with
  | [] => []
  | c :: r =>
      match rstrip r with
      | [] => if isspace c then [] else [c]
      | r' => c :: r'
      end
  end.

(** [s.strip()] *)
Definition strip (s : str) : str := rstrip (lstrip s).

Definition str_eqb (a b : str) : bool :=
  if list_eq_dec N.eq_dec a b then true else false.

Fixpoint startswith (s p : str) : bool :=
  match p, s with
  | [], _ => true
  | _ :: _, [] => false
  | a :: p', b :: s' => (a =? b)%N && startswith s' p'
  end.

(** [sub in s] on strings: [sub] occurs in [s] as a contiguous slice. *)
Fixpoint contains (s sub : str) : bool :=
  startswith s sub ||
  match s with
  | [] => false
  | _ :: s' => contains s' sub
  end.

(** [s.replace(old, new)] for one-code-point [old] and [new]. *)
Definition replace (old new : N) (s : str) : str :=
  map (fun c => if (c =? old)%N then new else c) s.

(** ** Dynamically typed values reaching [normalize_author] *)

#[warnings="-register-all"] Inductive pyval : Type :=
| PyNone
| PyBool (b : bool)
| PyInt (z : Z)
| PyBytes (b : list N)
| PyStr (s : str)
| PyList (l : list pyval).

Definition isinstance_str (v : pyval) : bool :=
  match v with PyStr _ => true | _ => false end.

(** ** [WhatsappPreprocessor.normalize_author] *)

(** The class [[\u200B-\u200D\uFEFF]] of zero-width code points. *)
Definition zero_width (c : N) : bool :=
  ((0x200B <=? c) && (c <=? 0x200D) || (c =? 0xFEFF))%N.

(** The class [[~\u223C]]: ASCII tilde and TILDE OPERATOR. *)
Definition tilde (c : N) : bool := ((c =? 0x7E) || (c =? 0x223C))%N.

(** [re.sub(r"[\u200B-\u200D\uFEFF]", "", s)] *)
Definition sub_zero_width (s : str) : str :=
  filter (fun c => negb (zero_width c)) s.

(** [re.sub(r"^[~\u223C]\s*", "", s)]: without MULTILINE the anchor only
    matches at offset 0, so at most one match is removed. *)
Definition sub_leading_tilde (s : str) : str :=
  match s with
  | c :: r => if tilde c then dropwhile isspace r else s
  | [] => []
  end.

(** [re.sub(r"\s+", " ", s)]: every maximal run of whitespace becomes one
    space; [in_run] tells that the previous code point was whitespace. *)
Fixpoint sub_whitespace (in_run : bool) (s : str) : str :=
  match s with
  | [] => []
  | c :: r =>
      if isspace c
      then (if in_run then sub_whitespace true r
            else SPACE :: sub_whitespace true r)
      else c :: sub_whitespace false r
  end.

Section Normalize.

(** [unicodedata.normalize("NFKC", _)] *)
Variable nfkc : str -> str.

(** The pipeline on a value known to be a [str]. *)
Definition normalize_str (name : str) : str :=
  let s := nfkc name in
  let s := sub_zero_width s in
  let s := replace 0xA0 SPACE s in
  let s := replace 0x202F SPACE s in
  let s := sub_leading_tilde s in
  let s := strip (sub_whitespace false s) in
  s.

Definition normalize_author (name : pyval) : pyval :=
  match name with
  | PyStr s => PyStr (normalize_str s)
  | _ => name  (* not isinstance(name, str) *)
  end.

End Normalize.

(** ** [wa_analyzer.settings]: the regex bundles and the configuration *)

Module settings.

Record BaseRegexes (regex : Type) : Type := mkBaseRegexes {
  timestamp : regex;
  author : regex;
  message : regex
}.

Record PreprocessConfig (regex : Type) : Type := mkPreprocessConfig {
  regexes : BaseRegexes regex;
  datetime_format : str;
  drop_authors : list str
}.

Arguments timestamp {regex} _.
Arguments author {regex} _.
Arguments message {regex} _.
Arguments regexes {regex} _.
Arguments datetime_format {regex} _.
Arguments drop_authors {regex} _.

End settings.

(** ** Dialect selection in [main] *)

Section Dialect.

Context {regex : Type}.
(** [str.lower] *)
Variable lower : str -> str.
Variables androidRegexes iosRegexes oldRegexes csvRegexes
  : settings.BaseRegexes regex.

Definition main_regexes (device : str) : settings.BaseRegexes regex :=
  if str_eqb (lower device) (of_string "ios") then iosRegexes
  else if str_eqb (lower device) (of_string "old") then oldRegexes
  else if str_eqb (lower device) (of_string "csv") then csvRegexes
  else androidRegexes.

End Dialect.

(** ** The author filter of [process]

    [any(drop_author in author for drop_author in self.drop_authors)] *)
Definition author_dropped (drop_authors : list str) (author : str) : bool :=
  existsb (fun drop_author => contains author drop_author) drop_authors.

(** ** [WhatsappPreprocessor.process] *)

(** A [datetime] made timezone-aware in UTC is a point of the time line;
    it is modelled by its integer coordinate. *)
Definition datetime := Z.

(** The tuples [(timestamp, author, msg)] held in [records]. *)
Definition record : Type := datetime * str * str.

Inductive exn : Type :=
| UnboundLocalError (name : string)
| IndexError
| TypeError
| AttributeError.

Inductive result (A : Type) : Type :=
| Ok (a : A)
| Raise (e : exn).
Arguments Ok {A} a.
Arguments Raise {A} e.

Definition bind {A B} (r : result A) (k : A -> result B) : result B :=
  match r with
  | Ok a => k a
  | Raise e => Raise e
  end.

Notation "x <- r ;; k" := (bind r (fun x => k))
  (at level 61, r at next level, right associativity).

(** Reading a local variable that may not have been assigned yet. *)
Definition load {A} (name : string) (v : option A) : result A :=
  match v with
  | Some a => Ok a
  | None => Raise (UnboundLocalError name)
  end.

(** [l[-1] = x] *)
Definition setitem_last {A} (l : list A) (x : A) : result (list A) :=
  match l with
  | [] => Raise IndexError
  | _ :: _ => Ok (removelast l ++ [x])
  end.

(** The local variables of [process] that live across loop iterations. *)
Record Locals : Type := mkLocals {
  records : list record;
  appended : list datetime;
  timestamp : option datetime;
  author : option str;
  msg : option str
}.

Definition locals0 : Locals :=
  {| records := []; appended := []; timestamp := None;
     author := None; msg := None |}.

Section Process.

Variable regex : Type.
(** [re.match(pattern, line)]: [Some g] when the pattern matches at the
    start of [line], with [g] the value of [groups()[0]]; as in
    [wa_analyzer.settings], a pattern has a first group and the group
    takes part in every match ([step_raw] below does without this). *)
Variable re_match : regex -> str -> option str.
(** [re.search(pattern, line)], likewise. *)
Variable re_search : regex -> str -> option str.
(** [datetime.strptime(s, fmt).replace(tzinfo=timezone.utc)];
    [None] stands for [ValueError]. *)
Variable strptime : str -> str -> option datetime.
Variable nfkc : str -> str.

Variable config : settings.PreprocessConfig regex.

(** One iteration of the loop body on [line]; the [logger] calls do not
    touch the locals and are left out. *)
Definition step (st : Locals) (line : str) : result Locals :=
  let tsreg := settings.timestamp (settings.regexes config) in
  let messagereg := settings.message (settings.regexes config) in
  let authorreg := settings.author (settings.regexes config) in
  match re_match tsreg line with
  | Some ts =>
      match strptime ts (settings.datetime_format config) with
      | None => Ok st
      | Some t =>
          let st := {| records := records st; appended := appended st;
                       timestamp := Some t;
                       author := author st; msg := msg st |} in
          let msg_ := re_search messagereg line in
          let author_ := re_search authorreg line in
          match msg_ with
          | None => Ok st
          | Some m_ =>
              match author_ with
              | None => Ok st
              | Some a_ =>
                  let raw_author := strip a_ in
                  let a := normalize_str nfkc raw_author in
                  let st := {| records := records st;
                               appended := appended st;
                               timestamp := timestamp st;
                               author := Some a; msg := msg st |} in
                  if author_dropped (settings.drop_authors config) a
                  then Ok st
                  else
                    let m := strip m_ in
                    Ok {| records := records st ++ [(t, a, m)];
                          appended := appended st;
                          timestamp := timestamp st;
                          author := author st; msg := Some m |}
              end
          end
      end
  | None =>
      if (0 <? List.length (records st))%nat then
        t <- load "timestamp" (timestamp st) ;;
        let appended' := appended st ++ [t] in
        m <- load "msg" (msg st) ;;
        let m' := m ++ of_string " " ++ strip line in
        a <- load "author" (author st) ;;
        records' <- setitem_last (records st) (t, a, m') ;;
        Ok {| records := records'; appended := appended';
              timestamp := timestamp st; author := author st;
              msg := Some m' |}
      else Ok st
  end.

(** The [for] loop over the lines. *)
Fixpoint run (st : Locals) (lines : list str) : result Locals :=
  match lines with
  | [] => Ok st
  | line :: rest => st' <- step st line ;; run st' rest
  end.

(** [process]: the lines of the data file are its input. *)
Definition process (lines : list str)
  : result (list record * list datetime) :=
  st <- run locals0 lines ;;
  Ok (records st, appended st).

(** *** What a line is to the loop body *)

(** The line does not match the timestamp pattern. *)
Definition continuation (line : str) : bool :=
  match re_match (settings.timestamp (settings.regexes config)) line with
  | Some _ => false
  | None => true
  end.

(** The value a line assigns to the local [timestamp]: the line matches
    the timestamp pattern and the captured text parses. *)
Definition parsed_timestamp (line : str) : option datetime :=
  match re_match (settings.timestamp (settings.regexes config)) line with
  | Some ts => strptime ts (settings.datetime_format config)
  | None => None
  end.

(** The record a line appends: the line passes every test of the first
    branch of the loop body. *)
Definition accepted (line : str) : option record :=
  match parsed_timestamp line with
  | Some t =>
      match re_search (settings.message (settings.regexes config)) line,
            re_search (settings.author (settings.regexes config)) line
      with
      | Some m_, Some a_ =>
          let a := normalize_str nfkc (strip a_) in
          if author_dropped (settings.drop_authors config) a then None
          else Some (t, a, strip m_)
      | _, _ => None
      end
  | None => None
  end.

Definition opt_list {A} (o : option A) : list A :=
  match o with
  | Some a => [a]
  | None => []
  end.

(** The records of the accepted header lines, in line order. *)
Definition headers (lines : list str) : list record :=
  flat_map (fun line => opt_list (accepted line)) lines.

(** The timestamps parsed from the header lines, in line order. *)
Definition parsed_timestamps (lines : list str) : list datetime :=
  flat_map (fun line => opt_list (parsed_timestamp line)) lines.

(** The loop body as a relation between the locals before and after a
    line, one rule for each way through it. *)
Inductive transition (st : Locals) (line : str) : Locals -> Prop :=
| T_append t a m :
    accepted line = Some (t, a, m) ->
    transition st line
      {| records := records st ++ [(t, a, m)]; appended := appended st;
         timestamp := Some t; author := Some a; msg := Some m |}
| T_discard st' :
    continuation line = false ->
    accepted line = None ->
    records st' = records st ->
    appended st' = appended st ->
    msg st' = msg st ->
    timestamp st' = match parsed_timestamp line with
                    | Some t => Some t
                    | None => timestamp st
                    end ->
    (author st' = author st \/ exists a, author st' = Some a) ->
    transition st line st'
| T_skip :
    continuation line = true ->
    records st = [] ->
    transition st line st
| T_merge R t0 a0 m t a :
    continuation line = true ->
    records st = R ++ [(t0, a0, m)] ->
    timestamp st = Some t ->
    author st = Some a ->
    msg st = Some m ->
    transition st line
      {| records := R ++ [(t, a, m ++ of_string " " ++ strip line)];
         appended := appended st ++ [t];
         timestamp := Some t; author := Some a;
         msg := Some (m ++ of_string " " ++ strip line) |}.

End Process.

Definition ts_of (r : record) : datetime := fst (fst r).
Definition msg_of (r : record) : str := snd r.

(** When [records] is not empty the three locals are bound and [msg] is
    the message of the last record. *)
Definition synced (st : Locals) : Prop :=
  records st = [] \/
  exists R t0 a0 m t a,
    records st = R ++ [(t0, a0, m)] /\ timestamp st = Some t /\
    author st = Some a /\ msg st = Some m.

(** Record [r] stems from header record [h]: its message starts with the
    message of [h]. *)
Definition originates (r h : record) : Prop :=
  exists tail, msg_of r = msg_of h ++ tail.

(** The timestamps of [records] are in non-decreasing order and none
    exceeds the local [timestamp]. *)
Definition ordered (st : Locals) : Prop :=
  StronglySorted Z.le (map ts_of (records st)) /\
  (records st = [] \/
   exists t, timestamp st = Some t /\
             Forall (fun r => (ts_of r <= t)%Z) (records st)).

(** ** A concrete dialect for the closed examples

    [wa_analyzer.settings] fixes the patterns of the four dialects; the
    examples below use a dialect of the same shape, with lines
    [HHMM - author: message], and the corresponding instances of the
    library functions. *)

Module demo.

(** The three patterns: four ASCII digits (group 1) before [" - "]; the
    shortest text (group 1) between [" - "] and a colon; the rest of
    the line (group 1) after [": "]. *)
Inductive regex : Type := TIMESTAMP | AUTHOR | MESSAGE.

Definition LF : N := 0x0A%N.

Definition isdigit (c : N) : bool := ((0x30 <=? c) && (c <=? 0x39))%N.

Fixpoint takewhile {A} (p : A -> bool) (l : list A) : list A :=
  match l with
  | [] => []
  | x :: r => if p x then x :: takewhile p r else []
  end.

(** The text before and after the first occurrence of [sep] in [s]. *)
Fixpoint partition (s sep : str) : option (str * str) :=
  if startswith s sep then Some ([], skipn (List.length sep) s)
  else
    match s with
    | [] => None
    | c :: r =>
        match partition r sep with
        | Some (a, b) => Some (c :: a, b)
        | None => None
        end
    end.

(** A match of the pattern at offset 0, giving its group 1; [.] does
    not match a line feed. *)
Definition re_match (r : regex) (s : str) : option str :=
  match r with
  | TIMESTAMP =>
      let ts := firstn 4 s in
      if (List.length ts =? 4)%nat && forallb isdigit ts
         && startswith (skipn 4 s) (of_string " - ")
      then Some ts else None
  | AUTHOR =>
      if startswith s (of_string " - ") then
        match partition (skipn 3 s) (of_string ":") with
        | Some (a, _) =>
            if existsb (N.eqb LF) a then None else Some a
        | None => None
        end
      else None
  | MESSAGE =>
      if startswith s (of_string ": ")
      then Some (takewhile (fun c => negb (c =? LF)%N) (skipn 2 s))
      else None
  end.

(** The leftmost match. *)
Fixpoint re_search (r : regex) (s : str) : option str :=
  match re_match r s with
  | Some g => Some g
  | None =>
      match s with
      | [] => None
      | _ :: s' => re_search r s'
      end
  end.

Definition digit (c : N) : Z := Z.of_N (c - 0x30).

(** [strptime] for the format [%H%M] on four digits: minutes since
    midnight of the default date. *)
Definition strptime (s fmt : str) : option datetime :=
  if str_eqb fmt (of_string "%H%M") then
    match s with
    | [h1; h2; m1; m2] =>
        let hh := (10 * digit h1 + digit h2)%Z in
        let mm := (10 * digit m1 + digit m2)%Z in
        if forallb isdigit s && (hh <? 24)%Z && (mm <? 60)%Z
        then Some (60 * hh + mm)%Z else None
    | _ => None
    end
  else None.

(** NFKC on the strings of the examples: the code points with a
    one-to-one compatibility mapping that matter here (the space variants
    and FULLWIDTH TILDE) are mapped, the pair of [a] and COMBINING ACUTE
    ACCENT is composed, and every other code point is left alone, as NFKC
    does on ASCII strings and on the zero-width code points. *)
Definition nfkc1 (c : N) : N :=
  (if (c =? 0xA0) || (0x2000 <=? c) && (c <=? 0x200A) || (c =? 0x202F)
      || (c =? 0x205F) || (c =? 0x3000)
   then SPACE
   else if c =? 0xFF5E then 0x7E else c)%N.

Fixpoint compose (s : str) : str :=
  match s with
  | a :: ((b :: r) as t) =>
      if ((a =? 0x61) && (b =? 0x301))%N then 0xE1%N :: compose r
      else a :: compose t
  | _ => s
  end.

Definition nfkc (s : str) : str := compose (map nfkc1 s).

(** [str.lower] on ASCII letters. *)
Definition lower (s : str) : str :=
  map (fun c => if (0x41 <=? c) && (c <=? 0x5A) then c + 0x20 else c)%N s.

Definition regexes : settings.BaseRegexes regex :=
  settings.mkBaseRegexes regex TIMESTAMP AUTHOR MESSAGE.

Definition config (drop_authors : list str)
  : settings.PreprocessConfig regex :=
  settings.mkPreprocessConfig regex regexes (of_string "%H%M") drop_authors.

Definition step (drop_authors : list str) :=
  step regex re_match re_search strptime nfkc (config drop_authors).

Definition run (drop_authors : list str) :=
  run regex re_match re_search strptime nfkc (config drop_authors).

Definition process (drop_authors : list str) :=
  process regex re_match re_search strptime nfkc (config drop_authors).

Definition headers (drop_authors : list str) :=
  headers regex re_match re_search strptime nfkc (config drop_authors).

Definition parsed_timestamps :=
  parsed_timestamps regex re_match strptime (config []).

End demo.

Open Scope string_scope.
Open Scope list_scope.

(** ** Predicates used in the statements *)

(** The string starts with a code point of the class [tilde]. *)
Definition leading_tilde (s : str) : bool :=
  match s with
  | c :: _ => tilde c
  | [] => false
  end.

(** Every whitespace code point of the string is a single [SPACE] that
    does not follow another whitespace code point ([prev_ws] tells whether
    the string is preceded by whitespace). *)
Fixpoint collapsed (prev_ws : bool) (s : str) : bool :=
  match s with
  | [] => true
  | c :: r =>
      if isspace c
      then (c =? SPACE)%N && negb prev_ws && collapsed true r
      else collapsed false r
  end.

(** Code points that survive the first three steps of the pipeline. *)
Definition clean (c : N) : bool :=
  (negb (zero_width c) && negb (c =? 0xA0) && negb (c =? 0x202F))%N.

(** [sep.join(pieces)] *)
Fixpoint join (sep : str) (pieces : list str) : str :=
  match pieces with
  | [] => []
  | p :: rest =>
      match rest with
      | [] => p
      | _ :: _ => p ++ sep ++ join sep rest
      end
  end.

(** ** [WhatsappPreprocessor.save]: the anonymization reference *)

Definition author_of (r : record) : str := snd (fst r).

(** [Series.unique()]: the distinct values in order of first appearance;
    [seen] holds the values met so far. *)
Fixpoint unique_from (seen l : list str) : list str :=
  match l with
  | [] => []
  | x :: r =>
      if existsb (str_eqb x) seen then unique_from seen r
      else x :: unique_from (x :: seen) r
  end.

Definition unique (l : list str) : list str := unique_from [] l.

(** A [dict] from [str] to [str]: its items in insertion order. *)
Definition dict : Type := list (str * str).

(** [d[k] = v]: an existing key keeps its place and takes the new value,
    a new key goes last. *)
Fixpoint dict_setitem (d : dict) (k v : str) : dict :=
  match d with
  | [] => [(k, v)]
  | (k', v') :: r =>
      if str_eqb k' k then (k', v) :: r
      else (k', v') :: dict_setitem r k v
  end.

(** [d[k]]; [None] stands for [KeyError]. *)
Fixpoint dict_getitem (d : dict) (k : str) : option str :=
  match d with
  | [] => None
  | (k', v') :: r => if str_eqb k' k then Some v' else dict_getitem r k
  end.

(** [d.keys()] *)
Definition dict_keys (d : dict) : list str := map fst d.

(** [a < b] on [str]: lexicographic on the code points. *)
Fixpoint str_ltb (a b : str) : bool :=
  match a, b with
  | _, [] => false
  | [], _ :: _ => true
  | x :: a', y :: b' => (x <? y)%N || (x =? y)%N && str_ltb a' b'
  end.

Fixpoint insort (x : str) (l : list str) : list str :=
  match l with
  | [] => [x]
  | y :: r => if str_ltb y x then y :: insort x r else x :: l
  end.

(** [sorted(l)] on a list of [str]. *)
Fixpoint sorted (l : list str) : list str :=
  match l with
  | [] => []
  | x :: r => insort x (sorted r)
  end.

Section Save.

(** [wa_analyzer.humanhasher.humanize], taken as a function that returns. *)
Variable humanize : str -> str.

(** The dictionary that [save] dumps to [anon_reference.json]:
    [authors] are the distinct authors of the records, [anon] maps each to
    its pseudonym, [ref] is [anon] turned around, and the result lists
    [ref] by sorted key. *)
Definition anon_reference (records : list record) : option dict :=
  let authors := unique (map author_of records) in
  let anon := fold_left (fun d k => dict_setitem d k (humanize k))
                authors [] in
  let ref := fold_left (fun d kv => dict_setitem d (snd kv) (fst kv))
               anon [] in
  fold_left
    (fun acc k =>
       match acc with
       | Some d =>
           match dict_getitem ref k with
           | Some v => Some (dict_setitem d k v)
           | None => None
           end
       | None => None
       end)
    (sorted (dict_keys ref)) (Some []).

End Save.

(** A stand-in for [humanize] in the closed examples: the first code
    point of the name, so that names with the same initial collide. *)
Definition initial (name : str) : str := firstn 1 name.

(** ** [main.py]: the colours of the first bar chart *)

Definition TOPK : nat := 15.
Definition MSG_THRESHOLD : Z := 700.

(** [topk = p1.head(TOPK)] and
    [[0 if x < MSG_THRESHOLD else 1 for x in topk["message"]]], on the
    column of message counts of [p1]. *)
Definition colors (message : list Z) : list Z :=
  map (fun x => if (x <? MSG_THRESHOLD)%Z then 0%Z else 1%Z)
    (firstn TOPK message).

(** ** [__call__] *)

Section Call.

Variable regex : Type.
Variables re_match re_search : regex -> str -> option str.
Variable strptime : str -> str -> option datetime.
Variable nfkc : str -> str.
Variable humanize : str -> str.
Variable config : settings.PreprocessConfig regex.

(** [__call__]: [process], then [save] on its records; of [save], the
    reference it writes. *)
Definition call (lines : list str) : result (option dict) :=
  out <- process regex re_match re_search strptime nfkc config lines ;;
  Ok (anon_reference humanize (fst out)).

End Call.

(** ** Reference behaviour of the loop *)

Section Merged.

(** The classification of a line, as [accepted] and [continuation] of a
    configuration give it. *)
Variable accepted : str -> option record.
Variable continuation : str -> bool.

(** The text [s] added to the message of the last record, if any. *)
Definition append_text (acc : list record) (s : str) : list record :=
  match acc with
  | [] => []
  | _ :: _ =>
      let '(t, a, m) := last acc (0%Z, [], []) in
      removelast acc ++ [(t, a, m ++ of_string " " ++ s)]
  end.

(** Merging by the kind of each line alone: an accepted header line opens
    a record, a line without timestamp extends the last record, any other
    line is dropped. *)
Fixpoint merged (acc : list record) (lines : list str) : list record :=
  match lines with
  | [] => acc
  | line :: rest =>
      match accepted line with
      | Some r => merged (acc ++ [r]) rest
      | None =>
          if continuation line
          then merged (append_text acc (strip line)) rest
          else merged acc rest
      end
  end.

(** The lines after the first accepted header line. *)
Fixpoint after_first_accepted (lines : list str) : list str :=
  match lines with
  | [] => []
  | line :: rest =>
      match accepted line with
      | Some _ => rest
      | None => after_first_accepted rest
      end
  end.

End Merged.

(** The last record carries the current locals. *)
Definition tight (st : Locals) : Prop :=
  records st = [] \/
  exists R t a m,
    records st = R ++ [(t, a, m)] /\ timestamp st = Some t /\
    author st = Some a /\ msg st = Some m.

(** ** [process] on match objects

    [step] takes the library call and the reading of the first group of
    the match as one function.  In the code the group is read from the
    match object, by [ts.groups()[0]], [author_.groups()[0].strip()] and
    [msg_.groups()[0].strip()], and this can raise: [IndexError] for a
    pattern without group, [TypeError] in [strptime] and [AttributeError]
    in [strip] for a group that took no part in the match.  [step_raw] is
    the loop body with these steps written out. *)

(** The tuple [m.groups()] of a match object [m]: one entry for each
    group of the pattern, [None] for a group that took no part. *)
Definition groups : Type := list (option str).

(** [m.groups()[0]] *)
Definition group0 (m : groups) : result (option str) :=
  match m with
  | [] => Raise IndexError
  | g :: _ => Ok g
  end.

Section ProcessRaw.

Variable regex : Type.
(** [re.match(pattern, line)] and [re.search(pattern, line)]: the match
    object, or [None]. *)
Variables re_match re_search : regex -> str -> option groups.
Variable strptime : str -> str -> option datetime.
Variable nfkc : str -> str.
Variable config : settings.PreprocessConfig regex.

Definition step_raw (st : Locals) (line : str) : result Locals :=
  let tsreg := settings.timestamp (settings.regexes config) in
  let messagereg := settings.message (settings.regexes config) in
  let authorreg := settings.author (settings.regexes config) in
  match re_match tsreg line with
  | Some ts =>
      g <- group0 ts ;;
      match g with
      | None => Raise TypeError
      | Some s =>
          match strptime s (settings.datetime_format config) with
          | None => Ok st
          | Some t =>
              let st := {| records := records st; appended := appended st;
                           timestamp := Some t;
                           author := author st; msg := msg st |} in
              let msg_ := re_search messagereg line in
              let author_ := re_search authorreg line in
              match msg_ with
              | None => Ok st
              | Some msg_ =>
                  match author_ with
                  | None => Ok st
                  | Some author_ =>
                      g <- group0 author_ ;;
                      match g with
                      | None => Raise AttributeError
                      | Some a_ =>
                          let raw_author := strip a_ in
                          let a := normalize_str nfkc raw_author in
                          let st := {| records := records st;
                                       appended := appended st;
                                       timestamp := timestamp st;
                                       author := Some a; msg := msg st |} in
                          if author_dropped (settings.drop_authors config) a
                          then Ok st
                          else
                            g <- group0 msg_ ;;
                            match g with
                            | None => Raise AttributeError
                            | Some m_ =>
                                let m := strip m_ in
                                Ok {| records := records st ++ [(t, a, m)];
                                      appended := appended st;
                                      timestamp := timestamp st;
                                      author := author st;
                                      msg := Some m |}
                            end
                      end
                  end
              end
          end
      end
  | None =>
      if (0 <? List.length (records st))%nat then
        t <- load "timestamp" (timestamp st) ;;
        let appended' := appended st ++ [t] in
        m <- load "msg" (msg st) ;;
        let m' := m ++ of_string " " ++ strip line in
        a <- load "author" (author st) ;;
        records' <- setitem_last (records st) (t, a, m') ;;
        Ok {| records := records'; appended := appended';
              timestamp := timestamp st; author := author st;
              msg := Some m' |}
      else Ok st
  end.

Fixpoint run_raw (st : Locals) (lines : list str) : result Locals :=
  match lines with
  | [] => Ok st
  | line :: rest => st' <- step_raw st line ;; run_raw st' rest
  end.

Definition process_raw (lines : list str)
  : result (list record * list datetime) :=
  st <- run_raw locals0 lines ;;
  Ok (records st, appended st).




End ProcessRaw.

(** Match objects for the example dialect, whose patterns have one group
    each. *)
Definition one_group (f : demo.regex -> str -> option str)
           (r : demo.regex) (s : str) : option groups :=
  match f r s with
  | Some g => Some [Some g]
  | None => None
  end.

(** * Properties *)

(** ** Strings *)

Lemma dropwhile_head {A} (p : A -> bool) (l : list A) :
  match dropwhile p l with
  | [] => True
  | x :: _ => p x = false
  end.
Proof.
  induction l as [|x r IH]; simpl; [exact I|].
  destruct (p x) eqn:E; [exact IH | exact E].
Qed.

Lemma Forall_dropwhile {A} (P : A -> Prop) (p : A -> bool) (l : list A) :
  Forall P l -> Forall P (dropwhile p l).
Proof.
  induction 1 as [|x r Hx Hr IH]; simpl; [constructor|].
  destruct (p x); [exact IH | now constructor].
Qed.

Lemma Forall_rstrip (P : N -> Prop) (s : str) :
  Forall P s -> Forall P (rstrip s).
Proof.
  induction 1 as [|c r Hc Hr IH]; simpl; [constructor|].
  destruct (rstrip r) as [|x r'].
  - destruct (isspace c); repeat constructor; assumption.
  - now constructor.
Qed.

Lemma Forall_sub_whitespace (P : N -> Prop) (s : str) :
  P SPACE -> Forall P s -> forall b, Forall P (sub_whitespace b s).
Proof.
  intros Hsp; induction 1 as [|c r Hc Hr IH]; intros b; simpl; [constructor|].
  destruct (isspace c); [destruct b|]; try constructor; auto.
Qed.

Lemma rstrip_idem (s : str) : rstrip (rstrip s) = rstrip s.
Proof.
  induction s as [|c r IH]; simpl; [reflexivity|].
  destruct (rstrip r) as [|x r'] eqn:E.
  - destruct (isspace c) eqn:Ec; simpl; [reflexivity | now rewrite Ec].
  - change (rstrip (c :: x :: r')) with
      (match rstrip (x :: r') with
       | [] => if isspace c then [] else [c]
       | y :: r'' => c :: y :: r''
       end).
    now rewrite IH.
Qed.

Lemma lstrip_rstrip_lstrip (s : str) :
  lstrip (rstrip (lstrip s)) = rstrip (lstrip s).
Proof.
  unfold lstrip.
  pose proof (dropwhile_head isspace s) as H.
  destruct (dropwhile isspace s) as [|c r]; [reflexivity|].
  simpl. destruct (rstrip r) as [|x r']; rewrite ?H; simpl; now rewrite H.
Qed.

Lemma strip_idem (s : str) : strip (strip s) = strip s.
Proof.
  unfold strip. now rewrite lstrip_rstrip_lstrip, rstrip_idem.
Qed.

Lemma collapsed_sub_whitespace (s : str) :
  forall b, collapsed b (sub_whitespace b s) = true.
Proof.
  induction s as [|c r IH]; intros b; simpl; [reflexivity|].
  destruct (isspace c) eqn:Ec.
  - destruct b; [apply IH|].
    change (collapsed false (SPACE :: sub_whitespace true r))
      with (collapsed true (sub_whitespace true r)). apply IH.
  - simpl. rewrite Ec. apply IH.
Qed.

Lemma collapsed_fix (s : str) :
  forall b, collapsed b s = true -> sub_whitespace b s = s.
Proof.
  induction s as [|c r IH]; intros b H; simpl in *; [reflexivity|].
  destruct (isspace c).
  - apply andb_prop in H as [H Hr]. apply andb_prop in H as [Hc Hb].
    apply N.eqb_eq in Hc. destruct b; [discriminate|].
    now rewrite (IH true Hr), Hc.
  - now rewrite (IH false H).
Qed.

Lemma collapsed_lstrip (s : str) :
  forall b, collapsed b s = true -> collapsed false (lstrip s) = true.
Proof.
  unfold lstrip.
  induction s as [|c r IH]; intros b H; simpl in *; [reflexivity|].
  destruct (isspace c) eqn:Ec.
  - apply andb_prop in H as [_ Hr]. now apply (IH true).
  - simpl. now rewrite Ec.
Qed.

Lemma collapsed_rstrip (s : str) :
  forall b, collapsed b s = true -> collapsed b (rstrip s) = true.
Proof.
  induction s as [|c r IH]; intros b H; [reflexivity|].
  simpl in H. simpl rstrip.
  destruct (rstrip r) as [|x r'] eqn:E.
  - destruct (isspace c) eqn:Ec; [reflexivity|]. simpl. now rewrite Ec.
  - change (collapsed b (c :: x :: r')) with
      (if isspace c
       then (c =? SPACE)%N && negb b && collapsed true (x :: r')
       else collapsed false (x :: r')).
    destruct (isspace c).
    + apply andb_prop in H as [H Hr]. rewrite H. exact (IH true Hr).
    + exact (IH false H).
Qed.

Lemma startswith_spec (p s : str) :
  startswith s p = true <-> exists post, s = p ++ post.
Proof.
  revert s; induction p as [|a p IH]; intros s; simpl.
  - destruct s; split; eauto.
  - destruct s as [|b s]; simpl.
    + split; [discriminate | intros [post H]; discriminate].
    + rewrite andb_true_iff, N.eqb_eq, IH. split.
      * intros [-> [post ->]]. now exists post.
      * intros [post H]. injection H as -> ->. eauto.
Qed.

Lemma contains_spec (sub s : str) :
  contains s sub = true <-> exists pre post, s = pre ++ sub ++ post.
Proof.
  induction s as [|c s IH]; cbn [contains];
    rewrite orb_true_iff, startswith_spec.
  - split.
    + intros [[post H]|H]; [|discriminate]. now exists [], post.
    + intros [pre [post H]]. left.
      destruct pre; [now exists post | discriminate].
  - rewrite IH. split.
    + intros [[post H]|[pre [post H]]].
      * now exists [], post.
      * exists (c :: pre), post. now rewrite H.
    + intros [[|c' pre] [post H]].
      * left. now exists post.
      * right. injection H as -> ->. now exists pre, post.
Qed.

Lemma str_eqb_eq (a b : str) : str_eqb a b = true <-> a = b.
Proof.
  unfold str_eqb. destruct (list_eq_dec N.eq_dec a b); split;
    auto; discriminate.
Qed.

(** ** [normalize_author] *)

Lemma sub_zero_width_clean (s : str) :
  Forall (fun c => clean c = true) s -> sub_zero_width s = s.
Proof.
  unfold sub_zero_width, clean.
  induction 1 as [|c r Hc Hr IH]; simpl; [reflexivity|].
  destruct (zero_width c); [discriminate|]. simpl. now rewrite IH.
Qed.

Lemma replace_absent (old new : N) (s : str) :
  Forall (fun c => (c =? old)%N = false) s -> replace old new s = s.
Proof.
  unfold replace.
  induction 1 as [|c r Hc Hr IH]; simpl; [reflexivity|].
  now rewrite Hc, IH.
Qed.

Lemma clean_no_nbsp (s : str) :
  Forall (fun c => clean c = true) s ->
  Forall (fun c => (c =? 0xA0)%N = false) s /\
  Forall (fun c => (c =? 0x202F)%N = false) s.
Proof.
  unfold clean.
  induction 1 as [|c r Hc Hr [IH1 IH2]]; [split; constructor|].
  apply andb_prop in Hc as [Hc H2]. apply andb_prop in Hc as [_ H1].
  apply negb_true_iff in H1, H2. split; now constructor.
Qed.

(** The first three steps leave only [clean] code points. *)
Lemma clean_after_replace (s : str) :
  Forall (fun c => clean c = true)
    (replace 0x202F SPACE (replace 0xA0 SPACE (sub_zero_width s))).
Proof.
  unfold replace, sub_zero_width, clean.
  induction s as [|c r IH]; simpl; [constructor|].
  destruct (zero_width c) eqn:Ez; simpl; [exact IH|].
  constructor; [|exact IH].
  destruct (c =? 0xA0)%N eqn:Ea; [reflexivity|].
  destruct (c =? 0x202F)%N eqn:En; [reflexivity|].
  now rewrite Ez, Ea, En.
Qed.

Lemma Forall_sub_leading_tilde (P : N -> Prop) (s : str) :
  Forall P s -> Forall P (sub_leading_tilde s).
Proof.
  intros H. destruct s as [|c r]; simpl; [constructor|].
  destruct (tilde c); [|exact H].
  apply Forall_dropwhile. now inversion H.
Qed.

Lemma normalize_str_clean (nfkc : str -> str) (s : str) :
  Forall (fun c => clean c = true) (normalize_str nfkc s).
Proof.
  unfold normalize_str, strip, lstrip.
  apply Forall_rstrip, Forall_dropwhile, Forall_sub_whitespace;
    [reflexivity|].
  apply Forall_sub_leading_tilde, clean_after_replace.
Qed.

Lemma normalize_str_collapsed (nfkc : str -> str) (s : str) :
  collapsed false (normalize_str nfkc s) = true.
Proof.
  unfold normalize_str, strip.
  apply collapsed_rstrip, (collapsed_lstrip _ false),
    collapsed_sub_whitespace.
Qed.

Lemma sub_leading_tilde_id (s : str) :
  leading_tilde s = false -> sub_leading_tilde s = s.
Proof.
  destruct s as [|c r]; simpl; [reflexivity|]. now intros ->.
Qed.

(** A string already produced by the pipeline goes through the pipeline
    unchanged as soon as the two steps that look at more than one code
    point at a time, NFKC and the leading tilde, have nothing to do. *)
Lemma normalize_str_fix (nfkc : str -> str) (s : str) :
  nfkc (normalize_str nfkc s) = normalize_str nfkc s ->
  leading_tilde (normalize_str nfkc s) = false ->
  normalize_str nfkc (normalize_str nfkc s) = normalize_str nfkc s.
Proof.
  intros Hn Ht.
  pose proof (normalize_str_clean nfkc s) as Hc.
  pose proof (normalize_str_collapsed nfkc s) as Hw.
  destruct (clean_no_nbsp _ Hc) as [Ha Hb].
  set (t := normalize_str nfkc s) in *.
  unfold normalize_str at 1.
  rewrite Hn, (sub_zero_width_clean _ Hc), (replace_absent _ _ _ Ha),
    (replace_absent _ _ _ Hb), (sub_leading_tilde_id _ Ht),
    (collapsed_fix _ _ Hw).
  unfold t, normalize_str. apply strip_idem.
Qed.

(** Two leading tildes: each pass removes one, whatever NFKC does on
    other strings. *)
Lemma two_tildes_two_passes (nfkc : str -> str) :
  nfkc (of_string "~~Jane") = of_string "~~Jane" ->
  nfkc (of_string "~Jane") = of_string "~Jane" ->
  normalize_str nfkc (of_string "~~Jane") = of_string "~Jane" /\
  normalize_str nfkc (of_string "~Jane") = of_string "Jane".
Proof.
  intros H2 H1. unfold normalize_str. rewrite H2, H1. split; reflexivity.
Qed.

(** The example of the specification. *)
Example normalize_author_jane_doe :
  normalize_author demo.nfkc
    (PyStr ([0x7E; 0xA0]%N ++ of_string "Jane" ++ [0x200B]%N
            ++ of_string " Doe"))
  = PyStr (of_string "Jane Doe").
Proof. reflexivity. Qed.

(** Removing a zero-width joiner can leave a sequence that NFKC
    composes: the second pass then changes the string again. *)
Example normalize_author_joiner :
  normalize_author demo.nfkc (PyStr [0x61; 0x200D; 0x301]%N)
  = PyStr [0x61; 0x301]%N /\
  normalize_author demo.nfkc (PyStr [0x61; 0x301]%N) = PyStr [0xE1]%N.
Proof. split; reflexivity. Qed.

(** C4, as stated, fails: on ["~~Jane"] the first pass yields ["~Jane"]
    and the second pass yields ["Jane"], because one pass strips a single
    leading tilde. *)
Lemma normalize_author_not_idempotent :
  normalize_author demo.nfkc
    (normalize_author demo.nfkc (PyStr (of_string "~~Jane")))
  <> normalize_author demo.nfkc (PyStr (of_string "~~Jane")).
Proof. vm_compute. discriminate. Qed.

(** C4, amended: [normalize_author] applied to its own result on a string
    [s] returns that result again, provided the result is stable under
    NFKC and does not begin with a tilde-like code point. *)
Theorem normalize_author_idempotent_amended (nfkc : str -> str) (s : str) :
  nfkc (normalize_str nfkc s) = normalize_str nfkc s ->
  leading_tilde (normalize_str nfkc s) = false ->
  normalize_author nfkc (normalize_author nfkc (PyStr s))
  = normalize_author nfkc (PyStr s).
Proof.
  intros Hn Ht. simpl. f_equal. now apply normalize_str_fix.
Qed.

Lemma normalize_author_idempotent_amended_witness :
  let s := [0x7E; 0xA0]%N ++ of_string "Jane" ++ [0x200B]%N
           ++ of_string "  Doe " in
  demo.nfkc (normalize_str demo.nfkc s) = normalize_str demo.nfkc s /\
  leading_tilde (normalize_str demo.nfkc s) = false /\
  normalize_author demo.nfkc (normalize_author demo.nfkc (PyStr s))
  = normalize_author demo.nfkc (PyStr s).
Proof.
  intros s. split; [reflexivity|]. split; [reflexivity|].
  apply (normalize_author_idempotent_amended demo.nfkc s); reflexivity.
Defined.

(** C10: a value that is not a [str] is returned as it is; the function
    is total, so nothing is raised. *)
Theorem normalize_author_non_str (nfkc : str -> str) (name : pyval) :
  isinstance_str name = false -> normalize_author nfkc name = name.
Proof. destruct name; simpl; intros H; [..|discriminate|]; reflexivity. Qed.

Lemma normalize_author_non_str_witness :
  isinstance_str (PyList [PyInt 42; PyNone]) = false /\
  normalize_author demo.nfkc (PyList [PyInt 42; PyNone])
  = PyList [PyInt 42; PyNone].
Proof.
  split; [reflexivity|].
  apply (normalize_author_non_str demo.nfkc (PyList [PyInt 42; PyNone])).
  reflexivity.
Defined.

(** ** The author filter *)

(** C7: the filter excludes an author exactly when some configured
    drop-substring occurs in it as a contiguous slice; with nothing
    configured, nobody is excluded. *)
Theorem author_dropped_iff (drop_authors : list str) (a : str) :
  (author_dropped drop_authors a = true <->
   exists d, In d drop_authors /\ exists pre post, a = pre ++ d ++ post)
  /\ author_dropped [] a = false.
Proof.
  split; [|reflexivity].
  unfold author_dropped. rewrite existsb_exists.
  split; intros [d [Hin H]]; exists d; split; trivial;
    now apply contains_spec.
Qed.

(** Containment, not equality: a drop-substring inside a longer name. *)
Example author_dropped_substring :
  author_dropped [of_string "Bob"] (of_string "Uncle Bob Jr") = true /\
  author_dropped [of_string "Bob"] (of_string "Alice") = false.
Proof. split; reflexivity. Qed.

(** ** Dialect selection *)

(** C8: the selection only depends on the lowercased selector; the
    lowercased names [ios], [old] and [csv] select their bundle, and
    every other selector, [android] included, selects the android
    bundle. *)
Theorem main_regexes_selection {regex : Type} (lower : str -> str)
  (androidRegexes iosRegexes oldRegexes csvRegexes
     : settings.BaseRegexes regex) (device : str) :
  let select :=
    main_regexes lower androidRegexes iosRegexes oldRegexes csvRegexes in
  (forall device', lower device' = lower device ->
                   select device' = select device) /\
  (lower device = of_string "ios" -> select device = iosRegexes) /\
  (lower device = of_string "old" -> select device = oldRegexes) /\
  (lower device = of_string "csv" -> select device = csvRegexes) /\
  (lower device = of_string "android" -> select device = androidRegexes) /\
  (lower device <> of_string "ios" -> lower device <> of_string "old" ->
   lower device <> of_string "csv" -> select device = androidRegexes).
Proof.
  intros select. unfold select, main_regexes.
  repeat split.
  - intros device' ->. reflexivity.
  - intros ->. reflexivity.
  - intros ->. reflexivity.
  - intros ->. reflexivity.
  - intros ->. reflexivity.
  - intros H1 H2 H3.
    destruct (str_eqb (lower device) (of_string "ios")) eqn:E1;
      [apply str_eqb_eq in E1; contradiction|].
    destruct (str_eqb (lower device) (of_string "old")) eqn:E2;
      [apply str_eqb_eq in E2; contradiction|].
    destruct (str_eqb (lower device) (of_string "csv")) eqn:E3;
      [apply str_eqb_eq in E3; contradiction|].
    reflexivity.
Qed.

Lemma main_regexes_selection_witness :
  let b := settings.mkBaseRegexes string in
  let select :=
    main_regexes demo.lower (b "a1" "a2" "a3") (b "i1" "i2" "i3")
      (b "o1" "o2" "o3") (b "c1" "c2" "c3") in
  demo.lower (of_string "iOS") = of_string "ios" /\
  select (of_string "iOS") = b "i1" "i2" "i3" /\
  select (of_string "CSV") = select (of_string "csv") /\
  select (of_string "Windows") = b "a1" "a2" "a3".
Proof.
  intros b select. split; [reflexivity|]. split; [|split].
  - apply (main_regexes_selection demo.lower (b "a1" "a2" "a3")
             (b "i1" "i2" "i3") (b "o1" "o2" "o3") (b "c1" "c2" "c3")
             (of_string "iOS")). reflexivity.
  - apply (main_regexes_selection demo.lower (b "a1" "a2" "a3")
             (b "i1" "i2" "i3") (b "o1" "o2" "o3") (b "c1" "c2" "c3")
             (of_string "csv")). reflexivity.
  - apply (main_regexes_selection demo.lower (b "a1" "a2" "a3")
             (b "i1" "i2" "i3") (b "o1" "o2" "o3") (b "c1" "c2" "c3")
             (of_string "Windows")); vm_compute; discriminate.
Defined.

(** ** [process]: the loop body *)

Lemma setitem_last_snoc {A} (R : list A) (x y : A) :
  setitem_last (R ++ [x]) y = Ok (R ++ [y]).
Proof.
  unfold setitem_last. destruct (R ++ [x]) as [|z l] eqn:E.
  - destruct R; discriminate.
  - now rewrite <- E, removelast_last.
Qed.

Lemma synced_locals0 : synced locals0.
Proof. now left. Qed.

Lemma join_snoc_head (sep m p : str) (ps : list str) :
  join sep ((m ++ sep ++ p) :: ps) = join sep (m :: p :: ps).
Proof.
  destruct ps as [|q ps]; simpl; [reflexivity|].
  now rewrite <- !app_assoc.
Qed.

Lemma sorted_snoc (l : list Z) (y : Z) :
  StronglySorted Z.le l -> Forall (fun x => (x <= y)%Z) l ->
  StronglySorted Z.le (l ++ [y]).
Proof.
  induction 1 as [|a l Hl IH Ha]; intros Hy; simpl.
  - repeat constructor.
  - inversion Hy; subst. constructor; [now apply IH|].
    apply Forall_app. split; [exact Ha | now constructor].
Qed.

Lemma sorted_prefix (l1 l2 : list Z) :
  StronglySorted Z.le (l1 ++ l2) -> StronglySorted Z.le l1.
Proof.
  induction l1 as [|a l1 IH]; simpl; intros H; [constructor|].
  inversion H; subst. constructor; [now apply IH|].
  now apply Forall_app in H3 as [H3 _].
Qed.

Lemma sorted_suffix (l1 l2 : list Z) :
  StronglySorted Z.le (l1 ++ l2) -> StronglySorted Z.le l2.
Proof.
  induction l1 as [|a l1 IH]; simpl; intros H; [exact H|].
  inversion H; subst. now apply IH.
Qed.

Lemma snoc_split {A} (P T R : list A) (x : A) :
  T <> [] -> P ++ T = R ++ [x] -> exists T0, T = T0 ++ [x] /\ R = P ++ T0.
Proof.
  intros HT H. destruct (exists_last HT) as [T0 [y ->]].
  rewrite app_assoc in H. apply app_inj_tail in H as [H ->].
  now exists T0.
Qed.

Section ProcessFacts.

Variable regex : Type.
Variables re_match re_search : regex -> str -> option str.
Variable strptime : str -> str -> option datetime.
Variable nfkc : str -> str.
Variable config : settings.PreprocessConfig regex.

Local Abbreviation tsreg := (settings.timestamp (settings.regexes config)).
Local Abbreviation messagereg := (settings.message (settings.regexes config)).
Local Abbreviation authorreg := (settings.author (settings.regexes config)).
Local Abbreviation step := (step regex re_match re_search strptime nfkc config).
Local Abbreviation run := (run regex re_match re_search strptime nfkc config).
Local Abbreviation process :=
  (process regex re_match re_search strptime nfkc config).
Local Abbreviation continuation := (continuation regex re_match config).
Local Abbreviation parsed_timestamp :=
  (parsed_timestamp regex re_match strptime config).
Local Abbreviation accepted :=
  (accepted regex re_match re_search strptime nfkc config).
Local Abbreviation headers :=
  (headers regex re_match re_search strptime nfkc config).
Local Abbreviation parsed_timestamps :=
  (parsed_timestamps regex re_match strptime config).
Local Abbreviation transition :=
  (transition regex re_match re_search strptime nfkc config).

(** A header line whose timestamp does not parse leaves every local as
    it was. *)
Lemma step_unparsable (st : Locals) (line ts : str) :
  re_match tsreg line = Some ts ->
  strptime ts (settings.datetime_format config) = None ->
  step st line = Ok st.
Proof. intros Hm Hp. unfold step. now rewrite Hm, Hp. Qed.

Lemma step_accepted (st : Locals) (line : str) t a m :
  accepted line = Some (t, a, m) ->
  step st line =
    Ok {| records := records st ++ [(t, a, m)]; appended := appended st;
          timestamp := Some t; author := Some a; msg := Some m |}.
Proof.
  unfold accepted, parsed_timestamp, step.
  destruct (re_match tsreg line) as [ts|]; [|discriminate].
  destruct (strptime ts _) as [t'|]; [|discriminate].
  destruct (re_search messagereg line) as [m_|]; [|discriminate].
  destruct (re_search authorreg line) as [a_|]; [|discriminate].
  cbv zeta.
  destruct (author_dropped _ _); [discriminate|].
  intros [= -> <- <-]. reflexivity.
Qed.

Lemma step_merge (st : Locals) (line : str) R t0 a0 m t a :
  continuation line = true ->
  records st = R ++ [(t0, a0, m)] ->
  timestamp st = Some t -> author st = Some a -> msg st = Some m ->
  step st line =
    Ok {| records := R ++ [(t, a, m ++ of_string " " ++ strip line)];
          appended := appended st ++ [t];
          timestamp := Some t; author := Some a;
          msg := Some (m ++ of_string " " ++ strip line) |}.
Proof.
  unfold continuation, step.
  destruct (re_match tsreg line); [discriminate|].
  intros _ Hr Ht Ha Hm. rewrite Hr, Ht, Ha, Hm, length_app. simpl.
  replace (0 <? List.length R + 1)%nat with true
    by (symmetry; apply Nat.ltb_lt; lia).
  now rewrite setitem_last_snoc.
Qed.

Lemma step_skip (st : Locals) (line : str) :
  continuation line = true -> records st = [] -> step st line = Ok st.
Proof.
  unfold continuation, step.
  destruct (re_match tsreg line); [discriminate|].
  intros _ ->. reflexivity.
Qed.

(** The three ways for a header line to be discarded after its
    timestamp has been parsed: each leaves [records] alone but keeps
    the assignment to [timestamp], and the last one also the assignment
    to [author]. *)
Lemma step_no_message (st : Locals) (line ts : str) (t : datetime) :
  re_match tsreg line = Some ts ->
  strptime ts (settings.datetime_format config) = Some t ->
  re_search messagereg line = None ->
  step st line =
    Ok {| records := records st; appended := appended st;
          timestamp := Some t; author := author st; msg := msg st |}.
Proof. intros Hm Hp Hs. unfold step. now rewrite Hm, Hp, Hs. Qed.

Lemma step_no_author (st : Locals) (line ts m_ : str) (t : datetime) :
  re_match tsreg line = Some ts ->
  strptime ts (settings.datetime_format config) = Some t ->
  re_search messagereg line = Some m_ ->
  re_search authorreg line = None ->
  step st line =
    Ok {| records := records st; appended := appended st;
          timestamp := Some t; author := author st; msg := msg st |}.
Proof. intros Hm Hp Hs Hu. unfold step. now rewrite Hm, Hp, Hs, Hu. Qed.

Lemma step_dropped (st : Locals) (line ts m_ a_ : str) (t : datetime) :
  re_match tsreg line = Some ts ->
  strptime ts (settings.datetime_format config) = Some t ->
  re_search messagereg line = Some m_ ->
  re_search authorreg line = Some a_ ->
  author_dropped (settings.drop_authors config)
    (normalize_str nfkc (strip a_)) = true ->
  step st line =
    Ok {| records := records st; appended := appended st;
          timestamp := Some t;
          author := Some (normalize_str nfkc (strip a_));
          msg := msg st |}.
Proof.
  intros Hm Hp Hs Hu Hd. unfold step. rewrite Hm, Hp, Hs, Hu.
  cbv zeta. now rewrite Hd.
Qed.

(** What these assignments amount to when a continuation line comes
    next: the last record takes the timestamp, and for a dropped author
    also the author, of the discarded line. *)
Lemma dropped_then_continuation (st : Locals) R t0 a0 m
      (line ts m_ a_ c : str) (t : datetime) a :
  records st = R ++ [(t0, a0, m)] -> msg st = Some m ->
  re_match tsreg line = Some ts ->
  strptime ts (settings.datetime_format config) = Some t ->
  re_search messagereg line = Some m_ ->
  re_search authorreg line = Some a_ ->
  a = normalize_str nfkc (strip a_) ->
  author_dropped (settings.drop_authors config) a = true ->
  re_match tsreg c = None ->
  exists st',
    run st [line; c] = Ok st' /\
    records st' = R ++ [(t, a, m ++ of_string " " ++ strip c)].
Proof.
  intros Hr Hmsg Hm Hp Hs Hu -> Hd Hc.
  eexists. cbn [run].
  rewrite (step_dropped st line ts m_ a_ t Hm Hp Hs Hu Hd). cbn [bind].
  erewrite step_merge; [split; reflexivity | | exact Hr | reflexivity..
                        | exact Hmsg].
  unfold continuation. now rewrite Hc.
Qed.

Lemma no_message_then_continuation (st : Locals) R t0 a0 m
      (line ts c : str) (t : datetime) :
  records st = R ++ [(t0, a0, m)] -> msg st = Some m ->
  author st = Some a0 ->
  re_match tsreg line = Some ts ->
  strptime ts (settings.datetime_format config) = Some t ->
  re_search messagereg line = None ->
  re_match tsreg c = None ->
  exists st',
    run st [line; c] = Ok st' /\
    records st' = R ++ [(t, a0, m ++ of_string " " ++ strip c)].
Proof.
  intros Hr Hmsg Ha Hm Hp Hs Hc.
  eexists. cbn [run].
  rewrite (step_no_message st line ts t Hm Hp Hs). cbn [bind].
  erewrite step_merge; [split; reflexivity | | exact Hr | reflexivity
                        | exact Ha | exact Hmsg].
  unfold continuation. now rewrite Hc.
Qed.

(** The loop body never raises from a [synced] state, and follows one
    of the four rules of [transition]. *)
Lemma step_transition (st : Locals) (line : str) :
  synced st ->
  exists st', step st line = Ok st' /\ transition st line st' /\ synced st'.
Proof.
  intros Hs.
  assert (Hkeep : forall st', records st' = records st ->
                              msg st' = msg st ->
                              (timestamp st' = timestamp st \/
                               exists t, timestamp st' = Some t) ->
                              (author st' = author st \/
                               exists a, author st' = Some a) ->
                              synced st').
  { intros st' Hr Hm Ht Ha.
    destruct Hs as [Hs|(R & t0 & a0 & m & t & a & Hs & Hst & Hsa & Hsm)].
    - left. congruence.
    - right.
      assert (exists t', timestamp st' = Some t') as [t' Ht']
        by (destruct Ht as [Ht|Ht]; [exists t; congruence | exact Ht]).
      assert (exists a', author st' = Some a') as [a' Ha']
        by (destruct Ha as [Ha|Ha]; [exists a; congruence | exact Ha]).
      exists R, t0, a0, m, t', a'. repeat split; congruence. }
  destruct (re_match tsreg line) as [ts|] eqn:Em.
  - assert (Hc : continuation line = false)
      by (unfold continuation; now rewrite Em).
    destruct (strptime ts (settings.datetime_format config)) as [t|] eqn:Ep.
    + assert (Hp : parsed_timestamp line = Some t)
        by (unfold parsed_timestamp; now rewrite Em).
      destruct (accepted line) as [[[t' a] m]|] eqn:Ea.
      { eexists. split; [exact (step_accepted st line t' a m Ea)|]. split.
        - now apply T_append.
        - right. exists (records st), t', a, m, t', a. now simpl. }
      assert (Hd : forall m_ a_,
                 re_search messagereg line = Some m_ ->
                 re_search authorreg line = Some a_ ->
                 author_dropped (settings.drop_authors config)
                   (normalize_str nfkc (strip a_)) = true).
      { intros m_ a_ Es Eu. revert Ea. unfold accepted.
        rewrite Hp, Es, Eu. cbv zeta.
        now destruct (author_dropped _ _). }
      unfold step. rewrite Em, Ep. cbv zeta.
      destruct (re_search messagereg line) as [m_|];
        [destruct (re_search authorreg line) as [a_|];
         [rewrite (Hd m_ a_ eq_refl eq_refl)|]|];
        eexists; (split; [reflexivity|]);
        (split; [apply T_discard | apply Hkeep]); simpl;
        rewrite ?Hp; eauto.
    + exists st. split; [now apply (step_unparsable st line ts)|].
      split; [|exact Hs].
      apply T_discard; auto.
      * unfold accepted, parsed_timestamp.
        now rewrite Em, Ep.
      * unfold parsed_timestamp. now rewrite Em, Ep.
  - assert (Hc : continuation line = true)
      by (unfold continuation; now rewrite Em).
    destruct Hs as [Hr|(R & t0 & a0 & m & t & a & Hr & Ht & Ha & Hm)].
    + exists st. split; [now apply step_skip|]. split.
      * now apply T_skip.
      * now left.
    + eexists. split; [now apply (step_merge st line R t0 a0 m t a)|].
      split.
      * now apply (T_merge _ _ _ _ _ _ st line R t0 a0 m t a).
      * right. exists R, t, a, (m ++ of_string " " ++ strip line), t, a.
        now simpl.
Qed.

(** *** The loop *)

Lemma run_app (l1 l2 : list str) :
  forall st, run st (l1 ++ l2) = (st' <- run st l1 ;; run st' l2).
Proof.
  induction l1 as [|line l1 IH]; intros st; simpl; [reflexivity|].
  destruct (step st line) as [st1|e]; simpl; [apply IH | reflexivity].
Qed.

Lemma run_total (lines : list str) :
  forall st, synced st -> exists st', run st lines = Ok st' /\ synced st'.
Proof.
  induction lines as [|line rest IH]; intros st Hs; simpl.
  - now exists st.
  - destruct (step_transition st line Hs) as (st1 & -> & _ & Hs1).
    simpl. now apply IH.
Qed.

(** [process] returns: no [UnboundLocalError] or [IndexError] can come
    out of the loop. *)
Lemma process_run (lines : list str) :
  exists st, run locals0 lines = Ok st /\ synced st /\
             process lines = Ok (records st, appended st).
Proof.
  destruct (run_total lines locals0 synced_locals0) as (st & Hr & Hs).
  exists st. unfold process. now rewrite Hr.
Qed.

Lemma accepted_parsed (line : str) t a m :
  accepted line = Some (t, a, m) -> parsed_timestamp line = Some t.
Proof.
  unfold accepted. destruct (parsed_timestamp line) as [t'|];
    [|discriminate].
  destruct (re_search messagereg line); [|discriminate].
  destruct (re_search authorreg line); [|discriminate].
  cbv zeta. destruct (author_dropped _ _); [discriminate|].
  now intros [= ->].
Qed.

Lemma continuation_parsed (line : str) :
  continuation line = true -> parsed_timestamp line = None.
Proof.
  unfold continuation, parsed_timestamp.
  now destruct (re_match tsreg line).
Qed.

Lemma continuation_accepted (line : str) :
  continuation line = true -> accepted line = None.
Proof.
  intros H. unfold accepted. now rewrite (continuation_parsed line H).
Qed.

(** A run of continuation lines after a state whose last record carries
    the current locals: every line is merged into that record. *)
Lemma run_merge (conts : list str) :
  forall st R t a m,
    Forall (fun l => continuation l = true) conts ->
    records st = R ++ [(t, a, m)] ->
    timestamp st = Some t -> author st = Some a -> msg st = Some m ->
    exists st',
      run st conts = Ok st' /\
      records st' =
        R ++ [(t, a, join (of_string " ") (m :: map strip conts))] /\
      appended st' = appended st ++ repeat t (List.length conts) /\
      timestamp st' = Some t /\ author st' = Some a /\
      msg st' = Some (join (of_string " ") (m :: map strip conts)).
Proof.
  induction conts as [|c rest IH]; intros st R t a m Hc Hr Ht Ha Hm.
  - exists st. simpl. rewrite app_nil_r. repeat split; assumption.
  - inversion Hc as [|? ? Hc1 Hc2]; subst.
    cbn [run]. rewrite (step_merge st c R t a m t a Hc1 Hr Ht Ha Hm).
    cbn [bind].
    match goal with
    | |- context [run ?st1 rest] =>
        destruct (IH st1 R t a (m ++ of_string " " ++ strip c) Hc2
                    eq_refl eq_refl eq_refl eq_refl)
          as (st' & Hrun & Hr' & Happ & Ht' & Ha' & Hm')
    end.
    exists st'. cbn [map]. rewrite <- join_snoc_head.
    repeat split; trivial.
    rewrite Happ. cbn [appended List.length repeat].
    now rewrite <- app_assoc.
Qed.

(** Records before the last one are never touched again. *)
Lemma transition_closed_prefix (st st' : Locals) (line : str)
      (P T : list record) :
  transition st line st' -> records st = P ++ T -> T <> [] ->
  exists T', T' <> [] /\ records st' = P ++ T'.
Proof.
  intros Htr Hr HT.
  destruct Htr as [t a m Hacc | st' Hc Hacc Hrec Happ Hmsg Hts Hau | Hc Hrec | R t0 a0 m t a Hc Hrec Hts Hau Hmsg]; simpl.
  - exists (T ++ [(t, a, m)]). split; [now destruct T|].
    now rewrite Hr, app_assoc.
  - exists T. split; [exact HT | congruence].
  - now exists T.
  - rewrite Hr in Hrec.
    destruct (snoc_split P T R _ HT Hrec) as (T0 & -> & ->).
    exists (T0 ++ [(t, a, m ++ of_string " " ++ strip line)]).
    split; [now destruct T0 | now rewrite app_assoc].
Qed.

Lemma run_closed_prefix (lines : list str) :
  forall st st' P T,
    synced st -> run st lines = Ok st' ->
    records st = P ++ T -> T <> [] ->
    exists T', T' <> [] /\ records st' = P ++ T'.
Proof.
  induction lines as [|line rest IH]; intros st st' P T Hs Hrun Hr HT.
  - injection Hrun as <-. now exists T.
  - simpl in Hrun.
    destruct (step_transition st line Hs) as (st1 & E & Htr & Hs1).
    rewrite E in Hrun. simpl in Hrun.
    destruct (transition_closed_prefix st st1 line P T Htr Hr HT)
      as (T1 & HT1 & Hr1).
    exact (IH st1 st' P T1 Hs1 Hrun Hr1 HT1).
Qed.

Lemma transition_originates (st st' : Locals) (line : str)
      (H : list record) :
  transition st line st' ->
  Forall2 originates (records st) H ->
  Forall2 originates (records st') (H ++ opt_list (accepted line)).
Proof.
  intros Htr HF.
  destruct Htr as [t a m Hacc | st' Hc Hacc Hrec Happ Hmsg Hts Hau | Hc Hrec | R t0 a0 m t a Hc Hrec Hts Hau Hmsg]; simpl.
  - rewrite Hacc. apply Forall2_app; [exact HF|].
    repeat constructor. exists []. now rewrite app_nil_r.
  - rewrite Hacc, Hrec, app_nil_r. exact HF.
  - now rewrite (continuation_accepted line Hc), app_nil_r.
  - rewrite (continuation_accepted line Hc), app_nil_r.
    rewrite Hrec in HF.
    apply Forall2_app_inv_l in HF as (H1' & H2' & HF1 & HF2 & ->).
    apply Forall2_app; [exact HF1|].
    inversion HF2 as [|x h l l' [tail Hx] Hnil]; subst.
    inversion Hnil; subst. repeat constructor.
    exists (tail ++ of_string " " ++ strip line).
    unfold msg_of in *. simpl in *. now rewrite Hx, <- app_assoc.
Qed.

Lemma run_originates (lines : list str) :
  forall st st' H,
    synced st -> Forall2 originates (records st) H ->
    run st lines = Ok st' ->
    Forall2 originates (records st') (H ++ headers lines).
Proof.
  induction lines as [|line rest IH]; intros st st' H Hs HF Hrun.
  - injection Hrun as <-. simpl. now rewrite app_nil_r.
  - simpl in Hrun.
    destruct (step_transition st line Hs) as (st1 & E & Htr & Hs1).
    rewrite E in Hrun. simpl in Hrun.
    cbn [headers flat_map]. rewrite app_assoc.
    apply (IH st1 st' _ Hs1); [|exact Hrun].
    exact (transition_originates st st1 line H Htr HF).
Qed.

Lemma ordered_bound (st : Locals) (t : datetime) :
  ordered st -> timestamp st = Some t ->
  Forall (fun r => (ts_of r <= t)%Z) (records st).
Proof.
  intros [_ [->|(t' & Ht' & HF)]] Ht; [constructor|].
  rewrite Ht in Ht'. now injection Ht' as <-.
Qed.

Lemma Forall_le_trans (l : list record) (t t' : datetime) :
  (t <= t')%Z -> Forall (fun r => (ts_of r <= t)%Z) l ->
  Forall (fun r => (ts_of r <= t')%Z) l.
Proof.
  intros Hle. apply Forall_impl. intros r Hr. lia.
Qed.

Lemma ordered_raise (st st' : Locals) (t : datetime) (ts : list datetime) :
  ordered st ->
  StronglySorted Z.le (opt_list (timestamp st) ++ t :: ts) ->
  records st' = records st -> timestamp st' = Some t ->
  Forall (fun r => (ts_of r <= t)%Z) (records st) /\ ordered st'.
Proof.
  intros Ho Hs Hr Ht.
  assert (HF : Forall (fun r => (ts_of r <= t)%Z) (records st)).
  { destruct (timestamp st) as [t1|] eqn:E.
    - apply (Forall_le_trans _ t1); [|now apply ordered_bound].
      simpl in Hs. inversion Hs; subst. now inversion H2.
    - destruct Ho as [_ [->|(t' & Ht' & _)]]; [constructor|congruence]. }
  split; [exact HF|].
  destruct Ho as [Ho _]. split; rewrite Hr; [exact Ho|].
  right. now exists t.
Qed.

Lemma transition_ordered (st st' : Locals) (line : str)
      (ts : list datetime) :
  transition st line st' -> ordered st ->
  StronglySorted Z.le
    (opt_list (timestamp st) ++ opt_list (parsed_timestamp line) ++ ts) ->
  ordered st' /\ StronglySorted Z.le (opt_list (timestamp st') ++ ts).
Proof.
  intros Htr Ho Hs.
  destruct Htr as [t a m Hacc | st' Hc Hacc Hrec Happ Hmsg Hts Hau | Hc Hrec | R t0 a0 m t a Hc Hrec Hts Hau Hmsg].
  - rewrite (accepted_parsed line t a m Hacc) in Hs. simpl in Hs.
    split; [|exact (sorted_suffix _ _ Hs)].
    destruct (ordered_raise st
                {| records := records st; appended := appended st;
                   timestamp := Some t; author := author st;
                   msg := msg st |} t ts Ho Hs eq_refl eq_refl)
      as [HF [Hsort _]].
    simpl in Hsort. split; simpl.
    + rewrite map_app. apply sorted_snoc; [exact Hsort|].
      now apply Forall_map.
    + right. exists t. split; [reflexivity|].
      apply Forall_app. split; [exact HF|].
      repeat constructor. unfold ts_of. simpl. lia.
  - destruct (parsed_timestamp line) as [t|].
    + simpl in Hs. split.
      * now apply (ordered_raise st st' t ts Ho Hs).
      * rewrite Hts. exact (sorted_suffix _ _ Hs).
    + simpl in Hs. rewrite Hts. split; [|exact Hs].
      destruct Ho as [Ho Hb]. split; rewrite Hrec; [exact Ho|].
      destruct Hb as [Hb|(t & Ht & HF)]; [now left|].
      right. exists t. now rewrite Hts.
  - rewrite (continuation_parsed line Hc) in Hs. now split.
  - rewrite (continuation_parsed line Hc), Hts in Hs. simpl in *.
    split; [|exact Hs].
    pose proof (ordered_bound st t Ho Hts) as HF.
    rewrite Hrec in HF. apply Forall_app in HF as [HF _].
    destruct Ho as [Ho _]. rewrite Hrec, map_app in Ho.
    apply sorted_prefix in Ho.
    split; simpl.
    + rewrite map_app. apply sorted_snoc; [exact Ho|].
      now apply Forall_map.
    + right. exists t. split; [reflexivity|].
      apply Forall_app. split; [exact HF|].
      repeat constructor. unfold ts_of. simpl. lia.
Qed.

Lemma run_ordered (lines : list str) :
  forall st st',
    synced st -> ordered st ->
    StronglySorted Z.le
      (opt_list (timestamp st) ++ parsed_timestamps lines) ->
    run st lines = Ok st' -> ordered st'.
Proof.
  induction lines as [|line rest IH]; intros st st' Hs Ho Hsort Hrun.
  - now injection Hrun as <-.
  - simpl in Hrun.
    destruct (step_transition st line Hs) as (st1 & E & Htr & Hs1).
    rewrite E in Hrun. simpl in Hrun.
    cbn [parsed_timestamps flat_map] in Hsort.
    destruct (transition_ordered st st1 line _ Htr Ho Hsort)
      as [Ho1 Hsort1].
    exact (IH st1 st' Hs1 Ho1 Hsort1 Hrun).
Qed.

(** *** Continuation lines *)

(** After an accepted header line [h] followed by lines [conts] that do
    not match the timestamp pattern, the record of [h] is the last one
    and its message is the trimmed message capture of [h] followed by the
    trimmed texts of [conts], joined by single spaces; each merged line
    is counted in [appended].  The record is final as soon as the next
    header line is accepted. *)
Theorem continuation_message (pre conts : list str) (h ts m_ a_ : str)
        (t : datetime) :
  re_match tsreg h = Some ts ->
  strptime ts (settings.datetime_format config) = Some t ->
  re_search messagereg h = Some m_ ->
  re_search authorreg h = Some a_ ->
  author_dropped (settings.drop_authors config)
    (normalize_str nfkc (strip a_)) = false ->
  Forall (fun l => re_match tsreg l = None) conts ->
  let r := (t, normalize_str nfkc (strip a_),
            join (of_string " ") (strip m_ :: map strip conts)) in
  exists R app,
    process pre = Ok (R, app) /\
    process (pre ++ h :: conts)
    = Ok (R ++ [r], app ++ repeat t (List.length conts)) /\
    (forall h' rest,
        accepted h' <> None ->
        exists R' app',
          process (pre ++ h :: conts ++ h' :: rest)
          = Ok (R ++ r :: R', app')).
Proof.
  intros Hm Hp Hs Hu Hd Hc r.
  assert (Ha : accepted h
               = Some (t, normalize_str nfkc (strip a_), strip m_)).
  { unfold accepted, parsed_timestamp. rewrite Hm, Hp, Hs, Hu.
    cbv zeta. now rewrite Hd. }
  assert (Hc' : Forall (fun l => continuation l = true) conts).
  { revert Hc. apply Forall_impl. intros l Hl.
    unfold continuation. now rewrite Hl. }
  destruct (process_run pre) as (st & Hrun & Hsy & Hproc).
  exists (records st), (appended st). split; [exact Hproc|].
  pose proof (step_accepted st h _ _ _ Ha) as Hstep.
  match type of Hstep with
  | _ = Ok ?st1 =>
      destruct (run_merge conts st1 (records st) t
                  (normalize_str nfkc (strip a_)) (strip m_) Hc'
                  eq_refl eq_refl eq_refl eq_refl)
        as (st2 & Hrun2 & Hr2 & Happ2 & Ht2 & Ha2 & Hm2)
  end.
  cbn [appended] in Happ2. fold r in Hr2.
  assert (Hblock : run st (h :: conts) = Ok st2)
    by (cbn [run]; rewrite Hstep; exact Hrun2).
  split.
  - unfold process. rewrite run_app, Hrun. cbn [bind].
    rewrite Hblock. cbn [bind]. now rewrite Hr2, Happ2.
  - intros h' rest Hne.
    destruct (accepted h') as [[[t' a'] m']|] eqn:Ea'; [|contradiction].
    assert (Hsy2 : synced st2).
    { right. exists (records st), t, (normalize_str nfkc (strip a_)),
        (join (of_string " ") (strip m_ :: map strip conts)), t,
        (normalize_str nfkc (strip a_)). auto. }
    pose proof (step_accepted st2 h' _ _ _ Ea') as Hstep'.
    match type of Hstep' with
    | _ = Ok ?st3 =>
        assert (Hsy3 : synced st3)
          by (right; exists (records st2), t', a', m', t', a'; auto);
        destruct (run_total rest st3 Hsy3) as (st4 & Hrun4 & _);
        destruct (run_closed_prefix rest st3 st4 (records st2)
                    [(t', a', m')] Hsy3 Hrun4 eq_refl)
          as (T' & _ & Hr4); [discriminate|]
    end.
    exists T', (appended st4). unfold process.
    change (pre ++ h :: conts ++ h' :: rest)
      with (pre ++ (h :: conts) ++ h' :: rest).
    rewrite run_app, Hrun. cbn [bind].
    rewrite run_app, Hblock. cbn [bind run].
    rewrite Hstep'. cbn [bind]. rewrite Hrun4. cbn [bind].
    now rewrite Hr4, Hr2, <- app_assoc.
Qed.

(** *** Header lines with an unparsable timestamp *)

(** C6: a line that matches the timestamp pattern and whose captured
    text does not parse appends no record and leaves every local of the
    loop as it was; the output is the one of the input without that
    line, and continuation lines after it are merged into the record
    they would have been merged into, whose author and timestamp they
    keep. *)
Theorem unparsable_timestamp_ignored (line ts : str) :
  re_match tsreg line = Some ts ->
  strptime ts (settings.datetime_format config) = None ->
  accepted line = None /\
  (forall st, step st line = Ok st) /\
  (forall pre post,
      process (pre ++ line :: post) = process (pre ++ post)) /\
  (forall st R t a m conts,
      records st = R ++ [(t, a, m)] ->
      timestamp st = Some t -> author st = Some a -> msg st = Some m ->
      Forall (fun l => re_match tsreg l = None) conts ->
      exists st',
        run st (line :: conts) = Ok st' /\
        records st'
        = R ++ [(t, a, join (of_string " ") (m :: map strip conts))]).
Proof.
  intros Hm Hp.
  assert (Hstep : forall st, step st line = Ok st)
    by (intros st; exact (step_unparsable st line ts Hm Hp)).
  split; [|split; [exact Hstep | split]].
  - unfold accepted, parsed_timestamp. now rewrite Hm, Hp.
  - intros pre post. unfold process. rewrite !run_app.
    destruct (run locals0 pre) as [st|e]; [|reflexivity].
    cbn [bind run]. now rewrite Hstep.
  - intros st R t a m conts Hr Ht Ha Hmsg Hc.
    assert (Hc' : Forall (fun l => continuation l = true) conts).
    { revert Hc. apply Forall_impl. intros l Hl.
      unfold continuation. now rewrite Hl. }
    destruct (run_merge conts st R t a m Hc' Hr Ht Ha Hmsg)
      as (st' & Hrun & Hr' & _).
    exists st'. cbn [run]. rewrite Hstep. cbn [bind]. now split.
Qed.

(** *** Order of the output *)

(** C9, amended: [process] returns, and its records are in the order of
    the accepted header lines they stem from, one record for each; the
    parser does not sort: the timestamps of the records are
    non-decreasing whenever the timestamps parsed from the header lines
    of the input are non-decreasing in line order. *)
Theorem process_order_preserved (lines : list str) :
  exists R app,
    process lines = Ok (R, app) /\
    Forall2 originates R (headers lines) /\
    (StronglySorted Z.le (parsed_timestamps lines) ->
     StronglySorted Z.le (map ts_of R)).
Proof.
  destruct (process_run lines) as (st & Hrun & Hsy & Hproc).
  exists (records st), (appended st). split; [exact Hproc|]. split.
  - apply (run_originates lines locals0 st [] synced_locals0);
      [constructor | exact Hrun].
  - intros Hsorted.
    apply (run_ordered lines locals0 st synced_locals0); trivial.
    split; [constructor | now left].
Qed.

End ProcessFacts.

(** ** The example dialect at work *)

(** The example of the specification, in the example dialect. *)
Example process_alice_bob :
  demo.process []
    (map of_string ["1000 - Alice: Hello"; "world"; "1001 - Bob: Hi"])
  = Ok ([(600%Z, of_string "Alice", of_string "Hello world");
         (601%Z, of_string "Bob", of_string "Hi")],
        [600%Z]).
Proof. reflexivity. Qed.

Lemma continuation_message_witness :
  let h := of_string "1000 - Alice: Hello " in
  let conts := [of_string "  world"; of_string "again  "] in
  exists R app,
    demo.process [] [of_string "noise"] = Ok (R, app) /\
    demo.process [] (of_string "noise" :: h :: conts)
    = Ok (R ++ [(600%Z, of_string "Alice",
                 of_string "Hello world again")],
          app ++ [600%Z; 600%Z]).
Proof.
  intros h conts.
  destruct (continuation_message demo.regex demo.re_match demo.re_search
              demo.strptime demo.nfkc (demo.config [])
              [of_string "noise"] conts h (of_string "1000")
              (of_string "Hello ") (of_string "Alice") 600%Z
              eq_refl eq_refl eq_refl eq_refl eq_refl)
    as (R & app & H1 & H2 & _).
  - repeat constructor.
  - exists R, app. split; [exact H1 | exact H2].
Defined.

Lemma unparsable_timestamp_ignored_witness :
  let bad := of_string "1099 - Bob: x" in
  demo.re_match demo.TIMESTAMP bad = Some (of_string "1099") /\
  demo.strptime (of_string "1099") (of_string "%H%M") = None /\
  demo.process []
    [of_string "1000 - Alice: Hello"; bad; of_string "world"]
  = demo.process [] [of_string "1000 - Alice: Hello"; of_string "world"].
Proof.
  intros bad. split; [reflexivity|]. split; [reflexivity|].
  destruct (unparsable_timestamp_ignored demo.regex demo.re_match
              demo.re_search demo.strptime demo.nfkc (demo.config [])
              bad (of_string "1099") eq_refl eq_refl)
    as (_ & _ & H & _).
  exact (H [of_string "1000 - Alice: Hello"] [of_string "world"]).
Defined.

Lemma process_order_preserved_witness :
  let lines :=
    map of_string ["1000 - Alice: Hello"; "world"; "1001 - Bob: Hi"] in
  StronglySorted Z.le (demo.parsed_timestamps lines) /\
  exists R app,
    demo.process [] lines = Ok (R, app) /\
    Forall2 originates R (demo.headers [] lines) /\
    StronglySorted Z.le (map ts_of R).
Proof.
  intros lines.
  assert (Hs : StronglySorted Z.le (demo.parsed_timestamps lines)).
  { change (StronglySorted Z.le [600; 601]%Z).
    apply SSorted_cons; [apply SSorted_cons; constructor|].
    constructor; [lia | constructor]. }
  split; [exact Hs|].
  destruct (process_order_preserved demo.regex demo.re_match demo.re_search
              demo.strptime demo.nfkc (demo.config []) lines)
    as (R & app & H1 & H2 & H3).
  exists R, app. split; [exact H1|]. split; [exact H2 | exact (H3 Hs)].
Defined.

(** C9, as stated, fails: the records follow the order of the lines, so
    header lines out of chronological order give records out of
    chronological order. *)
Lemma process_timestamps_not_sorted :
  exists R app,
    demo.process []
      (map of_string ["1001 - Bob: Hi"; "1000 - Alice: Hello"])
    = Ok (R, app) /\
    ~ StronglySorted Z.le (map ts_of R).
Proof.
  eexists. eexists. split; [reflexivity|].
  intros H. inversion H as [|a l _ Hall]; subst.
  inversion Hall as [|x l' Hle _]; subst.
  vm_compute in Hle. now apply Hle.
Qed.

(** C1, on the code: after the header line of a dropped author, a
    continuation line replaces the author and the timestamp of the last
    record by those of the dropped line. *)
Theorem continuation_rewrites_author_and_timestamp :
  let drop := [of_string "Bob"] in
  exists st st',
    demo.run drop locals0
      (map of_string ["1000 - Alice: Hello"; "1001 - Bob: Hi"]) = Ok st /\
    records st = [(600%Z, of_string "Alice", of_string "Hello")] /\
    demo.re_match demo.TIMESTAMP (of_string "world") = None /\
    demo.step drop st (of_string "world") = Ok st' /\
    records st' = [(601%Z, of_string "Bob", of_string "Hello world")].
Proof.
  intros drop. eexists. eexists.
  split; [reflexivity|]. split; [reflexivity|]. split; [reflexivity|].
  split; reflexivity.
Qed.

(** C2, on the code: the author [Bob] is configured to be dropped, and the
    output holds a record whose author is [Bob], with the text of the
    continuation line attributed to it. *)
Theorem dropped_author_in_output :
  author_dropped [of_string "Bob"]
    (normalize_str demo.nfkc (of_string "Bob")) = true /\
  demo.process [of_string "Bob"]
    (map of_string ["1000 - Alice: Hello"; "1001 - Bob: Hi"; "world"])
  = Ok ([(601%Z, of_string "Bob", of_string "Hello world")], [601%Z]).
Proof. split; reflexivity. Qed.

(** C3, on the code: a header line whose message cannot be extracted is
    discarded, but its timestamp is kept in the local [timestamp] and
    replaces the timestamp of the last record at the next continuation
    line; without the discarded line the record keeps its own
    timestamp. *)
Theorem discarded_header_changes_timestamp :
  let bad := of_string "1001 - Bob" in
  demo.re_match demo.TIMESTAMP bad = Some (of_string "1001") /\
  demo.strptime (of_string "1001") (of_string "%H%M") = Some 601%Z /\
  demo.re_search demo.MESSAGE bad = None /\
  demo.process []
    [of_string "1000 - Alice: Hello"; bad; of_string "world"]
  = Ok ([(601%Z, of_string "Alice", of_string "Hello world")], [601%Z]) /\
  demo.process [] [of_string "1000 - Alice: Hello"; of_string "world"]
  = Ok ([(600%Z, of_string "Alice", of_string "Hello world")], [600%Z]).
Proof. intros bad. repeat split; reflexivity. Qed.

(** * Further properties of the code *)

(** ** [normalize_author]: what the result looks like *)

Lemma str_eqb_spec (a b : str) : reflect (a = b) (str_eqb a b).
Proof.
  unfold str_eqb. destruct (list_eq_dec N.eq_dec a b); now constructor.
Qed.

Lemma isspace_not_tilde (c : N) : isspace c = true -> tilde c = false.
Proof.
  intros H. unfold tilde.
  destruct (c =? 0x7E)%N eqn:E1;
    [apply N.eqb_eq in E1; subst; discriminate|].
  destruct (c =? 0x223C)%N eqn:E2;
    [apply N.eqb_eq in E2; subst; discriminate|].
  reflexivity.
Qed.

Lemma tilde_not_special (c : N) :
  tilde c = true ->
  zero_width c = false /\ (c =? 0xA0)%N = false /\ (c =? 0x202F)%N = false.
Proof.
  unfold tilde. intros H. apply orb_prop in H as [H|H];
    apply N.eqb_eq in H; subst; repeat split; reflexivity.
Qed.

Lemma collapsed_middle (pre : str) :
  forall b c post,
    collapsed b (pre ++ c :: post) = true -> isspace c = true ->
    c = SPACE /\
    (pre = [] /\ b = false \/
     exists pre' x, pre = pre' ++ [x] /\ isspace x = false) /\
    (post = [] \/ exists y post', post = y :: post' /\ isspace y = false).
Proof.
  induction pre as [|a pre IH]; intros b c post H Hc.
  - simpl in H. rewrite Hc in H.
    apply andb_prop in H as [H Hp]. apply andb_prop in H as [H Hb].
    apply N.eqb_eq in H. apply negb_true_iff in Hb.
    split; [exact H|]. split; [now left|].
    destruct post as [|y post']; [now left|].
    right. exists y, post'. split; [reflexivity|].
    simpl in Hp. destruct (isspace y); [|reflexivity].
    now rewrite andb_false_r in Hp.
  - cbn [app collapsed] in H.
    assert (Hrec : collapsed (isspace a) (pre ++ c :: post) = true).
    { destruct (isspace a); [|exact H].
      now apply andb_prop in H as [_ H]. }
    destruct (IH _ c post Hrec Hc) as (Hs & Hpre & Hpost).
    split; [exact Hs|]. split; [|exact Hpost].
    right. destruct Hpre as [[-> Ha]|(pre' & x & -> & Hx)].
    + now exists [], a.
    + now exists (a :: pre'), x.
Qed.

Lemma rstrip_last (s : str) :
  forall pre c, rstrip s = pre ++ [c] -> isspace c = false.
Proof.
  induction s as [|a r IH]; intros pre c H; simpl in H.
  - now destruct pre.
  - destruct (rstrip r) as [|x r'] eqn:E.
    + destruct (isspace a) eqn:Ea; [now destruct pre|].
      destruct pre as [|p pre]; [now injection H as <-|].
      injection H as _ H. now destruct pre.
    + destruct pre as [|p pre]; [discriminate|].
      injection H as _ H. exact (IH pre c H).
Qed.

Lemma strip_fix_parts (t : str) :
  strip t = t -> lstrip t = t /\ rstrip t = t.
Proof.
  intros H. assert (Hl : lstrip t = t).
  { rewrite <- H at 1. unfold strip. rewrite lstrip_rstrip_lstrip.
    exact H. }
  split; [exact Hl|]. unfold strip in H. now rewrite Hl in H.
Qed.

(** X1: the result of [normalize_author] on a string holds no zero-width
    code point and no no-break space, narrow or not. *)
Theorem normalize_author_no_invisible (nfkc : str -> str) (s t : str) (c : N) :
  normalize_author nfkc (PyStr s) = PyStr t -> In c t ->
  zero_width c = false /\ c <> 0xA0%N /\ c <> 0x202F%N.
Proof.
  intros [= <-] Hin.
  pose proof (normalize_str_clean nfkc s) as H.
  rewrite Forall_forall in H. specialize (H c Hin). unfold clean in H.
  apply andb_prop in H as [H H2]. apply andb_prop in H as [H0 H1].
  apply negb_true_iff in H0, H1, H2.
  repeat split; trivial; now apply N.eqb_neq.
Qed.

Lemma normalize_author_no_invisible_witness :
  In 0x4A%N (of_string "Jane Doe") /\
  zero_width 0x4A = false /\ 0x4A%N <> 0xA0%N /\ 0x4A%N <> 0x202F%N.
Proof.
  split; [now left|].
  apply (normalize_author_no_invisible demo.nfkc
           ([0x7E; 0xA0]%N ++ of_string "Jane" ++ [0x200B]%N
            ++ of_string " Doe") (of_string "Jane Doe") 0x4A%N).
  - reflexivity.
  - now left.
Defined.

(** X2: the result of [normalize_author] on a string has no whitespace
    at either end, and each whitespace code point in it is a plain space
    standing between two code points that are not whitespace. *)
Theorem normalize_author_whitespace (nfkc : str -> str) (s t : str) :
  normalize_author nfkc (PyStr s) = PyStr t ->
  strip t = t /\
  forall pre c post,
    t = pre ++ c :: post -> isspace c = true ->
    c = SPACE /\
    (exists pre' x, pre = pre' ++ [x] /\ isspace x = false) /\
    (exists y post', post = y :: post' /\ isspace y = false).
Proof.
  intros [= <-].
  assert (Hs : strip (normalize_str nfkc s) = normalize_str nfkc s)
    by (unfold normalize_str; apply strip_idem).
  split; [exact Hs|]. intros pre c post Ht Hc.
  pose proof (normalize_str_collapsed nfkc s) as Hcol.
  destruct (strip_fix_parts _ Hs) as [Hl Hr].
  rewrite Ht in Hcol, Hl, Hr.
  destruct (collapsed_middle pre false c post Hcol Hc)
    as (Hsp & Hpre & Hpost).
  split; [exact Hsp|]. split.
  - destruct Hpre as [[-> _]|Hpre]; [|exact Hpre].
    exfalso. unfold lstrip in Hl. simpl in Hl. rewrite Hc in Hl.
    pose proof (dropwhile_head isspace post) as Hh.
    rewrite Hl in Hh. congruence.
  - destruct Hpost as [->|Hpost]; [|exact Hpost].
    exfalso. pose proof (rstrip_last _ pre c Hr). congruence.
Qed.

Lemma normalize_author_whitespace_witness :
  strip (of_string "Jane Doe") = of_string "Jane Doe" /\
  forall pre c post,
    of_string "Jane Doe" = pre ++ c :: post -> isspace c = true ->
    c = SPACE /\
    (exists pre' x, pre = pre' ++ [x] /\ isspace x = false) /\
    (exists y post', post = y :: post' /\ isspace y = false).
Proof.
  apply (normalize_author_whitespace demo.nfkc
           (of_string " Jane   Doe  ") (of_string "Jane Doe")).
  reflexivity.
Defined.

Lemma strip_sub_whitespace_blank (w : str) :
  Forall (fun c => isspace c = true) w ->
  forall b, strip (sub_whitespace b w) = [].
Proof.
  induction 1 as [|c r Hc Hr IH]; intros b; simpl; [reflexivity|].
  rewrite Hc. destruct b; [apply IH|].
  change (strip (SPACE :: sub_whitespace true r))
    with (strip (sub_whitespace true r)). apply IH.
Qed.

Lemma sub_zero_width_blank (u : str) :
  Forall (fun c => isspace c || zero_width c = true) u ->
  Forall (fun c => isspace c = true) (sub_zero_width u).
Proof.
  unfold sub_zero_width.
  induction 1 as [|c r Hc Hr IH]; simpl; [constructor|].
  destruct (zero_width c); simpl; [exact IH|].
  constructor; [|exact IH]. now rewrite orb_false_r in Hc.
Qed.

Lemma replace_blank (old : N) (w : str) :
  Forall (fun c => isspace c = true) w ->
  Forall (fun c => isspace c = true) (replace old SPACE w).
Proof.
  unfold replace. induction 1 as [|c r Hc Hr IH]; simpl; constructor; trivial.
  now destruct (c =? old)%N.
Qed.

Lemma sub_leading_tilde_blank (w : str) :
  Forall (fun c => isspace c = true) w -> sub_leading_tilde w = w.
Proof.
  intros H. destruct H as [|c r Hc Hr]; simpl; [reflexivity|].
  now rewrite (isspace_not_tilde c Hc).
Qed.

(** X3: a name whose NFKC form is made of whitespace and zero-width code
    points only is normalized to the empty string. *)
Theorem normalize_author_blank (nfkc : str -> str) (s : str) :
  Forall (fun c => isspace c || zero_width c = true) (nfkc s) ->
  normalize_author nfkc (PyStr s) = PyStr [].
Proof.
  intros H. simpl. f_equal. unfold normalize_str.
  assert (Hb : Forall (fun c => isspace c = true)
                 (replace 0x202F SPACE
                    (replace 0xA0 SPACE (sub_zero_width (nfkc s)))))
    by now apply replace_blank, replace_blank, sub_zero_width_blank.
  rewrite (sub_leading_tilde_blank _ Hb).
  now apply strip_sub_whitespace_blank.
Qed.

Lemma normalize_author_blank_witness :
  let s := [0x20; 0x200B; 0xA0; 0x09; 0xFEFF; 0x3000]%N in
  Forall (fun c => isspace c || zero_width c = true) (demo.nfkc s) /\
  normalize_author demo.nfkc (PyStr s) = PyStr [].
Proof.
  intros s.
  assert (H : Forall (fun c => isspace c || zero_width c = true)
                (demo.nfkc s)) by (repeat constructor).
  split; [exact H|].
  exact (normalize_author_blank demo.nfkc s H).
Defined.

Lemma dropwhile_app_all {A} (p : A -> bool) (l1 l2 : list A) :
  Forall (fun x => p x = true) l1 ->
  dropwhile p (l1 ++ l2) = dropwhile p l2.
Proof.
  induction 1 as [|x r Hx Hr IH]; simpl; [reflexivity|]. now rewrite Hx.
Qed.

Lemma lstrip_sub_whitespace (x : str) :
  forall b,
    lstrip (sub_whitespace b x)
    = lstrip (sub_whitespace false (dropwhile isspace x)).
Proof.
  unfold lstrip.
  induction x as [|c r IH]; intros b; [reflexivity|].
  cbn [sub_whitespace dropwhile].
  destruct (isspace c) eqn:Ec.
  - destruct b; [apply IH|].
    change (dropwhile isspace (SPACE :: sub_whitespace true r))
      with (dropwhile isspace (sub_whitespace true r)). apply IH.
  - cbn [sub_whitespace]. now rewrite Ec.
Qed.

Lemma leading_tilde_replace (old : N) (x : str) :
  leading_tilde x = false -> leading_tilde (replace old SPACE x) = false.
Proof.
  destruct x as [|c r]; simpl; [trivial|].
  intros H. now destruct (c =? old)%N.
Qed.

(** X4: a tilde in front of a name, with the whitespace and zero-width
    code points that follow it, does not count: when the NFKC form of
    [name] is that of [s] behind such a prefix, the two have the same
    normalization, provided [s] does not itself start with a tilde once
    its zero-width code points are gone. *)
Theorem normalize_author_tilde_prefix (nfkc : str -> str)
        (name s sp : str) (t : N) :
  nfkc name = t :: sp ++ nfkc s ->
  tilde t = true ->
  Forall (fun c => isspace c || zero_width c = true) sp ->
  leading_tilde (sub_zero_width (nfkc s)) = false ->
  normalize_author nfkc (PyStr name) = normalize_author nfkc (PyStr s).
Proof.
  intros Hn Ht Hsp Hs. simpl. f_equal. unfold normalize_str. rewrite Hn.
  destruct (tilde_not_special t Ht) as (Hz & Ha & Hb).
  set (prep := fun x => replace 0x202F SPACE
                          (replace 0xA0 SPACE (sub_zero_width x))).
  assert (Happ : forall x y, prep (x ++ y) = prep x ++ prep y).
  { intros x y. unfold prep, sub_zero_width, replace.
    now rewrite filter_app, !map_app. }
  change (strip (sub_whitespace false
                   (sub_leading_tilde (prep (t :: sp ++ nfkc s))))
          = strip (sub_whitespace false
                     (sub_leading_tilde (prep (nfkc s))))).
  assert (Hhead : prep (t :: sp ++ nfkc s) = t :: prep sp ++ prep (nfkc s)).
  { assert (Hone : prep [t] = [t]).
    { unfold prep, sub_zero_width, replace. cbn [filter]. rewrite Hz.
      cbn [negb map]. rewrite Ha. cbn [map]. now rewrite Hb. }
    change (t :: sp ++ nfkc s) with ([t] ++ sp ++ nfkc s).
    now rewrite !Happ, Hone. }
  rewrite Hhead. simpl. rewrite Ht.
  assert (Hblank : Forall (fun c => isspace c = true) (prep sp))
    by now apply replace_blank, replace_blank, sub_zero_width_blank.
  rewrite (dropwhile_app_all isspace _ _ Hblank).
  rewrite (sub_leading_tilde_id (prep (nfkc s)))
    by now apply leading_tilde_replace, leading_tilde_replace.
  unfold strip.
  now rewrite <- (lstrip_sub_whitespace (prep (nfkc s)) false).
Qed.

Lemma normalize_author_tilde_prefix_witness :
  let name := [0x7E; 0xA0]%N ++ of_string "Jane" ++ [0x200B]%N
              ++ of_string " Doe" in
  let s := of_string "Jane" ++ [0x200B]%N ++ of_string " Doe" in
  demo.nfkc name = 0x7E%N :: [SPACE] ++ demo.nfkc s /\
  normalize_author demo.nfkc (PyStr name)
  = normalize_author demo.nfkc (PyStr s).
Proof.
  intros name s. split; [reflexivity|].
  apply (normalize_author_tilde_prefix demo.nfkc name s [SPACE] 0x7E%N).
  - reflexivity.
  - reflexivity.
  - repeat constructor.
  - reflexivity.
Defined.

(** X5: among the strings that NFKC leaves alone and that do not start
    with a tilde, [normalize_author] returns exactly those unchanged that
    hold no zero-width code point and no no-break space, have their
    whitespace collapsed to single spaces and none at either end; case and
    diacritics play no part. *)
Theorem normalize_author_fixed_points (nfkc : str -> str) (s : str) :
  nfkc s = s -> leading_tilde s = false ->
  (normalize_author nfkc (PyStr s) = PyStr s <->
   Forall (fun c => clean c = true) s /\
   collapsed false s = true /\ strip s = s).
Proof.
  intros Hn Ht. split.
  - intros [= H]. rewrite <- H at 1 2. rewrite <- H at 3.
    split; [apply normalize_str_clean|].
    split; [apply normalize_str_collapsed|].
    rewrite H. rewrite <- H at 1 2. unfold normalize_str. apply strip_idem.
  - intros (Hc & Hw & Hs). simpl. f_equal.
    destruct (clean_no_nbsp _ Hc) as [Ha Hb].
    unfold normalize_str.
    now rewrite Hn, (sub_zero_width_clean _ Hc), (replace_absent _ _ _ Ha),
      (replace_absent _ _ _ Hb), (sub_leading_tilde_id _ Ht),
      (collapsed_fix _ _ Hw).
Qed.

Lemma normalize_author_fixed_points_witness :
  let s := of_string "Zo" ++ [0xEB]%N ++ of_string " van der Berg" in
  demo.nfkc s = s /\ leading_tilde s = false /\
  normalize_author demo.nfkc (PyStr s) = PyStr s.
Proof.
  intros s. split; [reflexivity|]. split; [reflexivity|].
  apply (normalize_author_fixed_points demo.nfkc s); try reflexivity.
  split; [|split; reflexivity].
  repeat constructor.
Defined.

(** ** [process]: edge cases and the shape of the output *)

Lemma contains_empty (a : str) : contains a [] = true.
Proof. now destruct a. Qed.

Lemma Forall_removelast {A} (P : A -> Prop) (l : list A) :
  Forall P l -> Forall P (removelast l).
Proof.
  induction 1 as [|x r Hx Hr IH]; simpl; [constructor|].
  destruct r; [constructor | now constructor].
Qed.

Section ProcessMore.

Variable regex : Type.
Variables re_match re_search : regex -> str -> option str.
Variable strptime : str -> str -> option datetime.
Variable nfkc : str -> str.
Variable config : settings.PreprocessConfig regex.

Local Abbreviation tsreg := (settings.timestamp (settings.regexes config)).
Local Abbreviation messagereg := (settings.message (settings.regexes config)).
Local Abbreviation authorreg := (settings.author (settings.regexes config)).
Local Abbreviation step := (step regex re_match re_search strptime nfkc
    config).
Local Abbreviation run := (run regex re_match re_search strptime nfkc config).
Local Abbreviation process :=
  (process regex re_match re_search strptime nfkc config).
Local Abbreviation continuation := (continuation regex re_match config).
Local Abbreviation parsed_timestamp :=
  (parsed_timestamp regex re_match strptime config).
Local Abbreviation accepted :=
  (accepted regex re_match re_search strptime nfkc config).
Local Abbreviation headers :=
  (headers regex re_match re_search strptime nfkc config).
Local Abbreviation transition :=
  (transition regex re_match re_search strptime nfkc config).

Local Abbreviation observed r :=
  (st <- r ;; Ok (records st, appended st)).

Lemma step_discard_fields (st : Locals) (line : str) :
  synced st -> accepted line = None -> continuation line = false ->
  exists st', step st line = Ok st' /\ synced st' /\
              records st' = records st /\ appended st' = appended st.
Proof.
  intros Hs Ha Hc.
  destruct ((step_transition regex re_match re_search strptime nfkc config) st
      line Hs) as (st' & E & Htr & Hs').
  exists st'. split; [exact E|]. split; [exact Hs'|].
  destruct Htr as [t a m Hacc | st' _ _ Hrec Happ _ _ _
                  | Hc' _ | R t0 a0 m t a Hc' _ _ _ _];
    try congruence. now split.
Qed.

Lemma headers_cons_nil (line : str) (rest : list str) :
  headers (line :: rest) = [] -> accepted line = None /\ headers rest = [].
Proof.
  cbn [headers flat_map]. intros H. apply app_eq_nil in H as [H1 H2].
  split; [|exact H2]. now destruct (accepted line).
Qed.

Lemma run_headerless (pre : list str) :
  forall st, headers pre = [] -> records st = [] ->
             exists st', run st pre = Ok st' /\ records st' = [] /\
                         appended st' = appended st.
Proof.
  induction pre as [|line rest IH]; intros st Hh Hr.
  - now exists st.
  - apply headers_cons_nil in Hh as [Ha Hh]. cbn [run].
    destruct (continuation line) eqn:Ec.
    + rewrite ((step_skip regex re_match re_search strptime nfkc config) st
        line Ec Hr). cbn [bind]. now apply IH.
    + destruct (step_discard_fields st line (or_introl Hr) Ha Ec)
        as (st1 & -> & _ & Hr1 & Happ1). cbn [bind].
      destruct (IH st1 Hh) as (st' & Hrun & Hr' & Happ'); [congruence|].
      exists st'. repeat split; congruence.
Qed.

(** Before the first record, only [appended] matters of the state. *)
Lemma run_empty_records (lines : list str) :
  forall st1 st2,
    records st1 = [] -> records st2 = [] -> appended st1 = appended st2 ->
    observed (run st1 lines) = observed (run st2 lines).
Proof.
  induction lines as [|line rest IH]; intros st1 st2 H1 H2 Happ.
  - simpl. now rewrite H1, H2, Happ.
  - cbn [run].
    destruct (accepted line) as [[[t a] m]|] eqn:Ea.
    + rewrite ((step_accepted regex re_match re_search strptime nfkc config)
        st1 line t a m Ea),
        ((step_accepted regex re_match re_search strptime nfkc config) st2
            line t a m Ea).
      now rewrite H1, H2, Happ.
    + destruct (continuation line) eqn:Ec.
      * rewrite ((step_skip regex re_match re_search strptime nfkc config) st1
          line Ec H1), ((step_skip regex re_match re_search strptime nfkc
              config) st2 line Ec H2).
        cbn [bind]. now apply IH.
      * destruct (step_discard_fields st1 line (or_introl H1) Ea Ec)
          as (s1 & -> & _ & Hr1 & Ha1).
        destruct (step_discard_fields st2 line (or_introl H2) Ea Ec)
          as (s2 & -> & _ & Hr2 & Ha2).
        cbn [bind]. apply IH; congruence.
Qed.

(** X7: lines before the first accepted header line are ignored, whatever
    they are: noise, header lines of dropped authors, header lines that
    fail to parse. *)
Theorem process_skips_preamble (pre rest : list str) :
  headers pre = [] -> process (pre ++ rest) = process rest.
Proof.
  intros Hh. unfold process. rewrite (run_app regex re_match re_search
      strptime nfkc config).
  destruct (run_headerless pre locals0 Hh eq_refl) as (st & -> & Hr & Ha).
  cbn [bind]. now apply (run_empty_records rest st locals0).
Qed.

(** X8: when no line of the input is an accepted header line, [process]
    returns no record and no appended timestamp. *)
Theorem process_without_header (lines : list str) :
  headers lines = [] -> process lines = Ok ([], []).
Proof.
  intros Hh. unfold process.
  destruct (run_headerless lines locals0 Hh eq_refl) as (st & -> & Hr & Ha).
  cbn [bind]. now rewrite Hr, Ha.
Qed.

Lemma accepted_none_empty_drop (line : str) :
  In [] (settings.drop_authors config) -> accepted line = None.
Proof.
  intros Hin. unfold accepted.
  destruct (parsed_timestamp line); [|reflexivity].
  destruct (re_search messagereg line); [|reflexivity].
  destruct (re_search authorreg line); [|reflexivity].
  cbv zeta.
  replace (author_dropped _ _) with true; [reflexivity|].
  symmetry. unfold author_dropped. apply existsb_exists.
  exists []. split; [exact Hin | apply contains_empty].
Qed.

Lemma headers_none (lines : list str) :
  (forall line, In line lines -> accepted line = None) -> headers lines = [].
Proof.
  induction lines as [|line rest IH]; intros H; [reflexivity|].
  cbn [headers flat_map]. rewrite (H line (or_introl eq_refl)).
  apply IH. intros l Hl. apply H. now right.
Qed.

(** X9: an empty string among the configured drop-substrings is contained
    in every author: every header line is dropped and the output is
    empty. *)
Theorem process_empty_drop_substring (lines : list str) :
  In [] (settings.drop_authors config) -> process lines = Ok ([], []).
Proof.
  intros Hin.
  assert (Hh : headers lines = [])
    by (apply headers_none; intros; now apply accepted_none_empty_drop).
  unfold process.
  destruct (run_headerless lines locals0 Hh eq_refl) as (st & -> & Hr & Ha).
  cbn [bind]. now rewrite Hr, Ha.
Qed.

Lemma transition_appended (st st' : Locals) (line : str) :
  transition st line st' -> exists A, appended st' = appended st ++ A.
Proof.
  intros Htr.
  destruct Htr as [t a m _ | st' _ _ _ Happ _ _ _ | _ _
                  | R t0 a0 m t a _ _ _ _ _].
  - exists []. simpl. now rewrite app_nil_r.
  - exists []. now rewrite app_nil_r.
  - exists []. now rewrite app_nil_r.
  - now exists [t].
Qed.

Lemma run_appended (lines : list str) :
  forall st st', synced st -> run st lines = Ok st' ->
                 exists A, appended st' = appended st ++ A.
Proof.
  induction lines as [|line rest IH]; intros st st' Hs Hrun.
  - injection Hrun as <-. exists []. now rewrite app_nil_r.
  - cbn [run] in Hrun.
    destruct ((step_transition regex re_match re_search strptime nfkc config)
        st line Hs) as (st1 & E & Htr & Hs1).
    rewrite E in Hrun. cbn [bind] in Hrun.
    destruct (transition_appended st st1 line Htr) as [A1 H1].
    destruct (IH st1 st' Hs1 Hrun) as [A2 H2].
    exists (A1 ++ A2). now rewrite H2, H1, app_assoc.
Qed.

(** X10: reading more lines never touches a record that is not the last
    one, never removes a record and only adds to [appended]: the output
    for [l1 ++ l2] is the output for [l1] without its last record,
    followed by at least one record if there was one, and the appended
    timestamps of [l1] followed by others. *)
Theorem process_prefix_stable (l1 l2 : list str) R1 app1 :
  process l1 = Ok (R1, app1) ->
  exists T A,
    process (l1 ++ l2) = Ok (removelast R1 ++ T, app1 ++ A) /\
    (R1 <> [] -> T <> []).
Proof.
  intros H1.
  destruct ((process_run regex re_match re_search strptime nfkc config) l1) as
      (st1 & Hrun1 & Hs1 & Hp1).
  rewrite Hp1 in H1. injection H1 as <- <-.
  destruct ((run_total regex re_match re_search strptime nfkc config) l2 st1
      Hs1) as (st2 & Hrun2 & Hs2).
  destruct (run_appended l2 st1 st2 Hs1 Hrun2) as [A HA].
  assert (Hp : process (l1 ++ l2) = Ok (records st2, appended st2)).
  { unfold process. rewrite (run_app regex re_match re_search strptime nfkc
      config), Hrun1. cbn [bind].
    now rewrite Hrun2. }
  destruct (records st1) as [|r0 R0] eqn:Er.
  - exists (records st2), A. rewrite Hp, HA. now split.
  - destruct (@exists_last _ (r0 :: R0)) as (P & x & EP); [discriminate|].
    rewrite EP in *.
    destruct ((run_closed_prefix regex re_match re_search strptime nfkc
        config) l2 st1 st2 P [x] Hs1 Hrun2 Er)
      as (T & HT & Hr2); [discriminate|].
    exists T, A. rewrite Hp, HA, Hr2, removelast_last. now split.
Qed.

(** *** Transcripts without discarded header lines *)

Lemma append_text_snoc (R : list record) t a m (s : str) :
  append_text (R ++ [(t, a, m)]) s
  = R ++ [(t, a, m ++ of_string " " ++ s)].
Proof.
  unfold append_text. destruct (R ++ [(t, a, m)]) as [|x l] eqn:E.
  - now destruct R.
  - rewrite <- E. now rewrite last_last, removelast_last.
Qed.

Lemma append_text_fields (acc : list record) (s : str) :
  map ts_of (append_text acc s) = map ts_of acc /\
  map author_of (append_text acc s) = map author_of acc.
Proof.
  destruct acc as [|r0 R0]; [now split|].
  destruct (@exists_last _ (r0 :: R0)) as (P & [[t a] m] & ->);
    [discriminate|].
  rewrite append_text_snoc, !map_app. now split.
Qed.

Lemma merged_fields (lines : list str) :
  forall acc,
    map ts_of ((merged accepted continuation) acc lines)
    = map ts_of acc ++ map ts_of (headers lines) /\
    map author_of ((merged accepted continuation) acc lines)
    = map author_of acc ++ map author_of (headers lines).
Proof.
  induction lines as [|line rest IH]; intros acc.
  - simpl. now rewrite !app_nil_r.
  - cbn [merged headers flat_map].
    destruct (accepted line) as [r|]; cbn [opt_list].
    + destruct (IH (acc ++ [r])) as [H1 H2].
      rewrite H1, H2, !map_app, <- !app_assoc. now split.
    + destruct (continuation line); [|apply IH].
      destruct (IH (append_text acc (strip line))) as [H1 H2].
      destruct (append_text_fields acc (strip line)) as [F1 F2].
      rewrite H1, H2, F1, F2. now split.
Qed.

Lemma run_merged (lines : list str) :
  forall st,
    tight st ->
    Forall (fun l => parsed_timestamp l = None \/ accepted l <> None) lines ->
    exists st', run st lines = Ok st' /\
                records st' = (merged accepted continuation) (records st)
                    lines.
Proof.
  induction lines as [|line rest IH]; intros st Ht Hall.
  - now exists st.
  - inversion Hall as [|? ? Hline Hrest]; subst.
    cbn [run merged].
    destruct (accepted line) as [[[t a] m]|] eqn:Ea.
    + rewrite ((step_accepted regex re_match re_search strptime nfkc config)
        st line t a m Ea). cbn [bind].
      match goal with
      | |- context [run ?st1 rest] =>
          destruct (IH st1) as (st' & Hrun & Hr); [|exact Hrest|]
      end.
      * right. now exists (records st), t, a, m.
      * exists st'. now split.
    + destruct Hline as [Hp|Hp]; [|contradiction].
      destruct (continuation line) eqn:Ec.
      * destruct Ht as [Hr|(R & t & a & m & Hr & Hts & Hau & Hm)].
        -- rewrite ((step_skip regex re_match re_search strptime nfkc config)
            st line Ec Hr). cbn [bind].
           destruct (IH st (or_introl Hr) Hrest) as (st' & Hrun & Hr').
           exists st'. split; [exact Hrun|]. now rewrite Hr', Hr.
        -- rewrite ((step_merge regex re_match re_search strptime nfkc config)
            st line R t a m t a Ec Hr Hts Hau Hm).
           cbn [bind].
           match goal with
           | |- context [run ?st1 rest] =>
               destruct (IH st1) as (st' & Hrun & Hr'); [|exact Hrest|]
           end.
           ++ right. now exists R, t, a, (m ++ of_string " " ++ strip line).
           ++ exists st'. split; [exact Hrun|].
              now rewrite Hr', Hr, append_text_snoc.
      * assert (Hstep : step st line = Ok st).
        { revert Ec Hp. unfold continuation, parsed_timestamp.
          destruct (re_match tsreg line) as [ts|] eqn:Em; [|discriminate].
          intros _ Hp. exact ((step_unparsable regex re_match re_search
              strptime nfkc config) st line ts Em Hp). }
        rewrite Hstep. cbn [bind]. now apply IH.
Qed.

(** X11: on a transcript in which every header line with a parsable
    timestamp is accepted (no dropped author, no header line without
    author or message), [process] merges by the kind of each line alone:
    its records are [merged accepted continuation [] lines], and their
    timestamps and authors are those of the accepted header lines, in
    order. *)
Theorem process_clean_transcript (lines : list str) :
  Forall (fun l => parsed_timestamp l = None \/ accepted l <> None) lines ->
  exists app,
    process lines = Ok (merged accepted continuation [] lines, app) /\
    map ts_of (merged accepted continuation [] lines) = map ts_of (headers
        lines) /\
    map author_of (merged accepted continuation [] lines) = map author_of
        (headers lines).
Proof.
  intros Hall.
  destruct (run_merged lines locals0 (or_introl eq_refl) Hall)
    as (st & Hrun & Hr).
  exists (appended st). split.
  - unfold process. rewrite Hrun. cbn [bind]. now rewrite Hr.
  - exact (merged_fields lines []).
Qed.

(** *** The diagnostic counter *)

Lemma accepted_not_continuation (line : str) r :
  accepted line = Some r -> continuation line = false.
Proof.
  intros Ha. destruct (continuation line) eqn:Ec; [|reflexivity].
  rewrite ((continuation_accepted regex re_match re_search strptime nfkc
      config) line Ec) in Ha. discriminate.
Qed.

Lemma run_count (lines : list str) :
  forall st st',
    synced st -> records st <> [] -> run st lines = Ok st' ->
    List.length (appended st')
    = (List.length (appended st)
       + List.length (filter continuation lines))%nat.
Proof.
  induction lines as [|line rest IH]; intros st st' Hs Hne Hrun.
  - injection Hrun as <-. simpl. lia.
  - cbn [run] in Hrun.
    destruct ((step_transition regex re_match re_search strptime nfkc config)
        st line Hs) as (st1 & E & Htr & Hs1).
    rewrite E in Hrun. cbn [bind] in Hrun. cbn [filter].
    destruct Htr as [t a m Hacc | st1 Hc Hacc Hrec Happ Hmsg Hts Hau
                    | Hc Hrec | R t0 a0 m t a Hc Hrec Hts Hau Hmsg].
    + rewrite (accepted_not_continuation line _ Hacc).
      rewrite (IH _ st' Hs1 ltac:(now destruct (records st)) Hrun).
      reflexivity.
    + rewrite Hc, (IH st1 st' Hs1 ltac:(congruence) Hrun), Happ.
      reflexivity.
    + contradiction.
    + rewrite Hc, (IH _ st' Hs1 ltac:(now destruct R) Hrun).
      cbn [appended List.length]. rewrite length_app. simpl. lia.
Qed.

Lemma run_count_empty (lines : list str) :
  forall st st',
    records st = [] -> run st lines = Ok st' ->
    List.length (appended st')
    = (List.length (appended st)
       + List.length (filter continuation ((after_first_accepted accepted)
           lines)))%nat.
Proof.
  induction lines as [|line rest IH]; intros st st' Hr Hrun.
  - injection Hrun as <-. simpl. lia.
  - cbn [run after_first_accepted] in *.
    destruct (accepted line) as [[[t a] m]|] eqn:Ea.
    + rewrite ((step_accepted regex re_match re_search strptime nfkc config)
        st line t a m Ea) in Hrun. cbn [bind] in Hrun.
      match type of Hrun with
      | run ?st1 rest = _ =>
          rewrite (run_count rest st1 st'); [reflexivity | | | exact Hrun]
      end.
      * right. now exists (records st), t, a, m, t, a.
      * simpl. now destruct (records st).
    + destruct (continuation line) eqn:Ec.
      * rewrite ((step_skip regex re_match re_search strptime nfkc config) st
          line Ec Hr) in Hrun. now apply IH.
      * destruct (step_discard_fields st line (or_introl Hr) Ea Ec)
          as (st1 & E & _ & Hr1 & Happ1).
        rewrite E in Hrun. cbn [bind] in Hrun.
        rewrite (IH st1 st'), Happ1; trivial. congruence.
Qed.

(** X12: the list [appended] has one entry for each line without
    timestamp that comes after the first accepted header line; lines
    without timestamp before it are not counted. *)
Theorem process_appended_count (lines : list str) R app :
  process lines = Ok (R, app) ->
  List.length app
  = List.length (filter continuation ((after_first_accepted accepted) lines)).
Proof.
  intros H.
  destruct ((process_run regex re_match re_search strptime nfkc config) lines)
      as (st & Hrun & _ & Hp).
  rewrite Hp in H. injection H as _ <-.
  now rewrite (run_count_empty lines locals0 st eq_refl Hrun).
Qed.

(** *** The authors of the output *)

Lemma accepted_author (line : str) t a m :
  accepted line = Some (t, a, m) ->
  exists a_, re_search authorreg line = Some a_ /\
             a = normalize_str nfkc (strip a_).
Proof.
  unfold accepted. destruct (parsed_timestamp line); [|discriminate].
  destruct (re_search messagereg line); [|discriminate].
  destruct (re_search authorreg line) as [a_|]; [|discriminate].
  cbv zeta. destruct (author_dropped _ _); [discriminate|].
  intros [= _ <- _]. now exists a_.
Qed.

Lemma step_discard_author (st st' : Locals) (line : str) :
  continuation line = false -> accepted line = None ->
  step st line = Ok st' ->
  author st' = author st \/
  exists a_, re_search authorreg line = Some a_ /\
             author st' = Some (normalize_str nfkc (strip a_)).
Proof.
  unfold continuation, accepted, parsed_timestamp, step.
  destruct (re_match tsreg line) as [ts|]; [|discriminate]. intros _.
  destruct (strptime ts _) as [t|]; [|intros _ [= <-]; now left].
  destruct (re_search messagereg line) as [m_|];
    [|intros _ [= <-]; now left].
  destruct (re_search authorreg line) as [a_|];
    [|intros _ [= <-]; now left].
  cbv zeta. destruct (author_dropped _ _); [|discriminate].
  intros _ [= <-]. right. now exists a_.
Qed.

Lemma run_authors (P : str -> Prop) (rest : list str) :
  (forall line a_, In line rest -> re_search authorreg line = Some a_ ->
                   P (normalize_str nfkc (strip a_))) ->
  forall st st',
    synced st ->
    (forall a, author st = Some a -> P a) ->
    Forall (fun r => P (author_of r)) (records st) ->
    run st rest = Ok st' ->
    Forall (fun r => P (author_of r)) (records st').
Proof.
  induction rest as [|line rest IH]; intros HP st st' Hs Ha Hr Hrun.
  - now injection Hrun as <-.
  - cbn [run] in Hrun.
    destruct ((step_transition regex re_match re_search strptime nfkc config)
        st line Hs) as (st1 & E & Htr & Hs1).
    rewrite E in Hrun. cbn [bind] in Hrun.
    assert (HP' : forall l a_, In l rest ->
                               re_search authorreg l = Some a_ ->
                               P (normalize_str nfkc (strip a_)))
      by (intros l a_ Hl; apply HP; now right).
    apply (IH HP' st1 st' Hs1); [| |exact Hrun].
    + destruct Htr as [t a m Hacc | st1 Hc Hacc Hrec Happ Hmsg Hts Hau
                      | Hc Hrec | R t0 a0 m t a Hc Hrec Hts Hau Hmsg];
        cbn [author]; trivial.
      * intros a' [= <-].
        destruct (accepted_author line t a m Hacc) as (a_ & Hs_ & ->).
        apply (HP line a_); [now left | exact Hs_].
      * intros a' Ha'.
        destruct (step_discard_author st st1 line Hc Hacc E)
          as [Hsame|(a_ & Hs_ & Hnew)].
        -- apply Ha. congruence.
        -- rewrite Hnew in Ha'. injection Ha' as <-.
           apply (HP line a_); [now left | exact Hs_].
      * intros a' [= <-]. now apply Ha.
    + destruct Htr as [t a m Hacc | st1 Hc Hacc Hrec Happ Hmsg Hts Hau
                      | Hc Hrec | R t0 a0 m t a Hc Hrec Hts Hau Hmsg];
        cbn [records]; trivial.
      * apply Forall_app. split; [exact Hr|]. repeat constructor.
        destruct (accepted_author line t a m Hacc) as (a_ & Hs_ & ->).
        apply (HP line a_); [now left | exact Hs_].
      * now rewrite Hrec.
      * rewrite Hrec in Hr. apply Forall_app in Hr as [Hr _].
        apply Forall_app. split; [exact Hr|]. repeat constructor.
        now apply Ha.
Qed.

(** X13: the author of every record of the output is the normalized,
    trimmed author capture of some line of the input; so it holds no
    zero-width code point and no no-break space, and has no whitespace at
    either end. *)
Theorem process_authors_normalized (lines : list str) R app r :
  process lines = Ok (R, app) -> In r R ->
  (exists line a_,
      In line lines /\ re_search authorreg line = Some a_ /\
      author_of r = normalize_str nfkc (strip a_)) /\
  Forall (fun c => clean c = true) (author_of r) /\
  strip (author_of r) = author_of r.
Proof.
  intros H Hin.
  destruct ((process_run regex re_match re_search strptime nfkc config) lines)
      as (st & Hrun & _ & Hp).
  rewrite Hp in H. injection H as <- _.
  assert (Hex : exists line a_,
             In line lines /\ re_search authorreg line = Some a_ /\
             author_of r = normalize_str nfkc (strip a_)).
  { pose proof (run_authors
                  (fun a => exists line a_,
                       In line lines /\
                       re_search authorreg line = Some a_ /\
                       a = normalize_str nfkc (strip a_))
                  lines) as HF.
    cbv beta in HF.
    assert (HR : Forall
                   (fun r => exists line a_,
                        In line lines /\
                        re_search authorreg line = Some a_ /\
                        author_of r = normalize_str nfkc (strip a_))
                   (records st)).
    { apply (HF ltac:(intros line a_ Hl Hs; now exists line, a_)
                locals0 st synced_locals0);
        [discriminate | constructor | exact Hrun]. }
    rewrite Forall_forall in HR. exact (HR r Hin). }
  split; [exact Hex|].
  destruct Hex as (line & a_ & _ & _ & ->).
  split; [apply normalize_str_clean|].
  unfold normalize_str. apply strip_idem.
Qed.

(** *** Continuation lines, whatever follows *)

(** From a header line on, as long as no other header line is accepted,
    the last record keeps its place and takes the text of every line
    without timestamp; discarded header lines do not end the merge. *)
Lemma run_block (block : list str) :
  forall st R t0 a0 m,
    synced st -> records st = R ++ [(t0, a0, m)] ->
    Forall (fun l => accepted l = None) block ->
    exists st' t1 a1,
      run st block = Ok st' /\ synced st' /\
      records st'
      = R ++ [(t1, a1,
               join (of_string " ")
                 (m :: map strip (filter continuation block)))].
Proof.
  induction block as [|line rest IH]; intros st R t0 a0 m Hs Hr Hall.
  - now exists st, t0, a0.
  - inversion Hall as [|? ? Hline Hrest]; subst. cbn [run filter].
    destruct ((step_transition regex re_match re_search strptime nfkc
                 config) st line Hs) as (st1 & E & Htr & Hs1).
    rewrite E. cbn [bind].
    destruct Htr as [t a m' Hacc | st1 Hc _ Hrec _ _ _ _
                    | Hc Hrec | R' t0' a0' m' t a Hc Hrec _ _ _].
    + congruence.
    + rewrite Hc. apply (IH st1 R t0 a0 m Hs1); [congruence | exact Hrest].
    + rewrite Hrec in Hr. now destruct R.
    + rewrite Hc. rewrite Hr in Hrec.
      apply app_inj_tail in Hrec as [<- [= _ _ <-]].
      cbn [map]. rewrite <- join_snoc_head.
      match goal with
      | |- context [run ?s rest] =>
          apply (IH s R t a (m ++ of_string " " ++ strip line) Hs1);
            [reflexivity | exact Hrest]
      end.
Qed.

(** C5, amended: in the output, the message of the record of an accepted
    header line [h] is the trimmed message capture of [h] followed by the
    trimmed text of every line without timestamp up to the next accepted
    header line or the end of the input, joined by single spaces; header
    lines discarded in between do not end the merge.  When only lines
    without timestamp follow [h], the record keeps the timestamp and the
    author of [h] and each line is counted in [appended]. *)
Theorem continuation_message_amended (pre block : list str)
        (h ts m_ a_ : str) (t : datetime) :
  re_match tsreg h = Some ts ->
  strptime ts (settings.datetime_format config) = Some t ->
  re_search messagereg h = Some m_ ->
  re_search authorreg h = Some a_ ->
  author_dropped (settings.drop_authors config)
    (normalize_str nfkc (strip a_)) = false ->
  Forall (fun l => accepted l = None) block ->
  let message :=
    join (of_string " ")
      (strip m_ :: map strip (filter continuation block)) in
  exists R app t' a' app',
    process pre = Ok (R, app) /\
    process (pre ++ h :: block) = Ok (R ++ [(t', a', message)], app') /\
    (forall h' rest,
        accepted h' <> None ->
        exists R' app'',
          process (pre ++ h :: block ++ h' :: rest)
          = Ok (R ++ (t', a', message) :: R', app'')) /\
    (Forall (fun l => re_match tsreg l = None) block ->
     t' = t /\ a' = normalize_str nfkc (strip a_) /\
     app' = app ++ repeat t (List.length block)).
Proof.
  intros Hm Hp Hs Hu Hd Hall message.
  assert (Ha : accepted h
               = Some (t, normalize_str nfkc (strip a_), strip m_)).
  { unfold accepted, parsed_timestamp. rewrite Hm, Hp, Hs, Hu.
    cbv zeta. now rewrite Hd. }
  destruct ((process_run regex re_match re_search strptime nfkc config) pre)
    as (st & Hrun & Hsy & Hproc).
  pose proof ((step_accepted regex re_match re_search strptime nfkc config)
                st h _ _ _ Ha) as Hstep.
  match type of Hstep with
  | _ = Ok ?st1 =>
      assert (Hsy1 : synced st1)
        by (right; exists (records st), t,
              (normalize_str nfkc (strip a_)), (strip m_), t,
              (normalize_str nfkc (strip a_)); auto);
      destruct (run_block block st1 (records st) t
                  (normalize_str nfkc (strip a_)) (strip m_) Hsy1
                  eq_refl Hall)
        as (st2 & t' & a' & Hrun2 & Hsy2 & Hr2)
  end.
  fold message in Hr2.
  assert (Hblock : run st (h :: block) = Ok st2)
    by (cbn [run]; rewrite Hstep; exact Hrun2).
  assert (Hp2 : process (pre ++ h :: block)
                = Ok (records st ++ [(t', a', message)], appended st2)).
  { unfold process.
    rewrite (run_app regex re_match re_search strptime nfkc config), Hrun.
    cbn [bind]. rewrite Hblock. cbn [bind]. now rewrite Hr2. }
  exists (records st), (appended st), t', a', (appended st2).
  split; [exact Hproc|]. split; [exact Hp2|]. split.
  - intros h' rest Hne.
    destruct (accepted h') as [[[th ah] mh]|] eqn:Ea'; [|contradiction].
    pose proof ((step_accepted regex re_match re_search strptime nfkc
                   config) st2 h' _ _ _ Ea') as Hstep'.
    match type of Hstep' with
    | _ = Ok ?st3 =>
        assert (Hsy3 : synced st3)
          by (right; exists (records st2), th, ah, mh, th, ah; auto);
        destruct ((run_total regex re_match re_search strptime nfkc config)
                    rest st3 Hsy3) as (st4 & Hrun4 & _);
        destruct ((run_closed_prefix regex re_match re_search strptime nfkc
                     config) rest st3 st4 (records st2) [(th, ah, mh)]
                    Hsy3 Hrun4 eq_refl) as (T' & _ & Hr4);
          [discriminate|]
    end.
    exists T', (appended st4). unfold process.
    change (pre ++ h :: block ++ h' :: rest)
      with (pre ++ (h :: block) ++ h' :: rest).
    rewrite (run_app regex re_match re_search strptime nfkc config), Hrun.
    cbn [bind].
    rewrite (run_app regex re_match re_search strptime nfkc config), Hblock.
    cbn [bind run]. rewrite Hstep'. cbn [bind]. rewrite Hrun4. cbn [bind].
    now rewrite Hr4, Hr2, <- app_assoc.
  - intros Hc.
    destruct (continuation_message regex re_match re_search strptime nfkc
                config pre block h ts m_ a_ t Hm Hp Hs Hu Hd Hc)
      as (R0 & app0 & H0 & H1 & _).
    rewrite Hproc in H0. injection H0 as <- <-.
    rewrite Hp2 in H1. injection H1 as H1 H2.
    apply app_inj_tail in H1 as [_ [= -> -> _]]. auto.
Qed.

End ProcessMore.

Lemma process_skips_preamble_witness :
  demo.headers [] (map of_string ["chat export"; "1099 - Bob: x"]) = [] /\
  demo.process []
    (map of_string ["chat export"; "1099 - Bob: x"; "1000 - Al: Hi"; "yo"])
  = demo.process [] (map of_string ["1000 - Al: Hi"; "yo"]).
Proof.
  split; [reflexivity|].
  exact (process_skips_preamble demo.regex demo.re_match demo.re_search
           demo.strptime demo.nfkc (demo.config [])
           (map of_string ["chat export"; "1099 - Bob: x"])
           (map of_string ["1000 - Al: Hi"; "yo"]) eq_refl).
Defined.

Lemma process_without_header_witness :
  demo.headers [of_string "Bob"]
    (map of_string ["1001 - Bob: Hi"; "world"; "2561 - Al: x"]) = [] /\
  demo.process [of_string "Bob"]
    (map of_string ["1001 - Bob: Hi"; "world"; "2561 - Al: x"])
  = Ok ([], []).
Proof.
  split; [reflexivity|].
  exact (process_without_header demo.regex demo.re_match demo.re_search
           demo.strptime demo.nfkc (demo.config [of_string "Bob"])
           (map of_string ["1001 - Bob: Hi"; "world"; "2561 - Al: x"])
           eq_refl).
Defined.

Lemma process_empty_drop_substring_witness :
  In [] [of_string "Bob"; []] /\
  demo.process [of_string "Bob"; []]
    (map of_string ["1000 - Alice: Hello"; "world"; "1001 - Carol: Hi"])
  = Ok ([], []).
Proof.
  split; [right; now left|].
  apply (process_empty_drop_substring demo.regex demo.re_match
           demo.re_search demo.strptime demo.nfkc
           (demo.config [of_string "Bob"; []])).
  right. now left.
Defined.

(** C5, as stated, fails: line 1 is accepted and line 2 is the one line
    after it that does not match the timestamp pattern (line 3 matches
    it), yet the message of the record is not the capture of line 1
    followed by line 2: line 3 is discarded, its timestamp does not
    parse, and line 4 is merged into the same record. *)
Lemma continuation_message_not_final :
  let lines :=
    map of_string ["1000 - Alice: Hello"; "world"; "1099 - Bob: x";
                   "again"] in
  accepted demo.regex demo.re_match demo.re_search demo.strptime demo.nfkc
    (demo.config []) (of_string "1000 - Alice: Hello")
  = Some (600%Z, of_string "Alice", of_string "Hello") /\
  demo.re_match demo.TIMESTAMP (of_string "world") = None /\
  demo.re_match demo.TIMESTAMP (of_string "1099 - Bob: x")
  = Some (of_string "1099") /\
  demo.process [] lines
  = Ok ([(600%Z, of_string "Alice", of_string "Hello world again")],
        [600%Z; 600%Z]) /\
  of_string "Hello world again"
  <> join (of_string " ")
       [strip (of_string "Hello"); strip (of_string "world")].
Proof.
  intros lines. repeat split; try reflexivity.
  vm_compute. discriminate.
Qed.

Lemma continuation_message_amended_witness :
  let h := of_string "1000 - Alice: Hello" in
  let block := map of_string ["world"; "1099 - Bob: x"; "again"] in
  Forall (fun l => accepted demo.regex demo.re_match demo.re_search
                     demo.strptime demo.nfkc (demo.config []) l = None)
    block /\
  exists t' a' app',
    demo.process [] (h :: block)
    = Ok ([(t', a', of_string "Hello world again")], app').
Proof.
  intros h block.
  assert (Hall : Forall (fun l => accepted demo.regex demo.re_match
                                    demo.re_search demo.strptime demo.nfkc
                                    (demo.config []) l = None) block)
    by (repeat (apply Forall_cons; [reflexivity|]); apply Forall_nil).
  split; [exact Hall|].
  destruct (continuation_message_amended demo.regex demo.re_match
              demo.re_search demo.strptime demo.nfkc (demo.config [])
              [] block h (of_string "1000") (of_string "Hello")
              (of_string "Alice") 600%Z
              eq_refl eq_refl eq_refl eq_refl eq_refl Hall)
    as (R & app & t' & a' & app' & H0 & H1 & _).
  change (Ok ([], []) = Ok (R, app)) in H0. injection H0 as <- <-.
  exists t', a', app'. exact H1.
Defined.

Lemma process_prefix_stable_witness :
  let l1 := map of_string ["1000 - Al: Hi"; "1001 - Bo: Yo"] in
  let l2 := map of_string ["there"; "1002 - Cy: Hey"] in
  demo.process [] l1
  = Ok ([(600%Z, of_string "Al", of_string "Hi");
         (601%Z, of_string "Bo", of_string "Yo")], []) /\
  exists T A,
    demo.process [] (l1 ++ l2)
    = Ok ([(600%Z, of_string "Al", of_string "Hi")] ++ T, [] ++ A) /\
    T <> [].
Proof.
  intros l1 l2. split; [reflexivity|].
  destruct (process_prefix_stable demo.regex demo.re_match demo.re_search
              demo.strptime demo.nfkc (demo.config []) l1 l2 _ _ eq_refl)
    as (T & A & H1 & H2).
  exists T, A. split; [exact H1|]. apply H2. discriminate.
Defined.

Lemma process_clean_transcript_witness :
  let lines :=
    map of_string ["1000 - Al: Hi"; "there"; "1099 - Bo: x"; "you"] in
  exists app,
    demo.process [] lines
    = Ok ([(600%Z, of_string "Al", of_string "Hi there you")], app).
Proof.
  intros lines.
  destruct (process_clean_transcript demo.regex demo.re_match
              demo.re_search demo.strptime demo.nfkc (demo.config []) lines)
    as (app & H & _).
  - unfold lines. cbn [map].
    repeat (apply Forall_cons;
            [(left; reflexivity) || (right; vm_compute; discriminate)|]).
    apply Forall_nil.
  - exists app. exact H.
Defined.

Lemma process_appended_count_witness :
  let lines :=
    map of_string ["noise"; "1000 - Al: Hi"; "there"; "1001 - Bo"; "you"] in
  demo.process [] lines
  = Ok ([(601%Z, of_string "Al", of_string "Hi there you")],
        [600%Z; 601%Z]) /\
  List.length [600%Z; 601%Z] = 2%nat.
Proof.
  intros lines. split; [reflexivity|].
  exact (process_appended_count demo.regex demo.re_match demo.re_search
           demo.strptime demo.nfkc (demo.config []) lines _ _ eq_refl).
Defined.

Lemma process_authors_normalized_witness :
  let lines := [of_string "1000 - ~ Al " ++ [0x200B%N] ++ of_string ": Hi"] in
  let r := (600%Z, of_string "Al", of_string "Hi") in
  demo.process [] lines = Ok ([r], []) /\
  strip (author_of r) = author_of r.
Proof.
  intros lines r. split; [reflexivity|].
  apply (process_authors_normalized demo.regex demo.re_match demo.re_search
           demo.strptime demo.nfkc (demo.config []) lines [r] [] r).
  - reflexivity.
  - now left.
Defined.

(** ** [save]: the anonymization reference *)

(** *** Dictionaries *)

Lemma dict_getitem_setitem (d : dict) (k v k' : str) :
  dict_getitem (dict_setitem d k v) k'
  = if str_eqb k k' then Some v else dict_getitem d k'.
Proof.
  induction d as [|[k0 v0] r IH]; simpl.
  - reflexivity.
  - destruct (str_eqb_spec k0 k) as [->|Hne]; simpl.
    + now destruct (str_eqb k k').
    + rewrite IH. destruct (str_eqb_spec k0 k') as [->|Hne'].
      * destruct (str_eqb_spec k k'); [congruence | reflexivity].
      * reflexivity.
Qed.

Lemma dict_keys_setitem (d : dict) (k v k' : str) :
  In k' (dict_keys (dict_setitem d k v)) <-> k' = k \/ In k' (dict_keys d).
Proof.
  unfold dict_keys. induction d as [|[k0 v0] r IH]; simpl.
  - intuition.
  - destruct (str_eqb_spec k0 k) as [->|Hne]; simpl.
    + intuition.
    + rewrite IH. intuition.
Qed.

Lemma dict_setitem_fresh (d : dict) (k v : str) :
  ~ In k (dict_keys d) -> dict_setitem d k v = d ++ [(k, v)].
Proof.
  unfold dict_keys. induction d as [|[k0 v0] r IH]; simpl; intros H.
  - reflexivity.
  - destruct (str_eqb_spec k0 k) as [->|Hne]; [tauto|].
    rewrite IH; [reflexivity | tauto].
Qed.

Lemma dict_keys_setitem_NoDup (d : dict) (k v : str) :
  NoDup (dict_keys d) -> NoDup (dict_keys (dict_setitem d k v)).
Proof.
  unfold dict_keys. induction d as [|[k0 v0] r IH]; simpl; intros H.
  - repeat constructor. intros [].
  - inversion H as [|? ? Hnin Hr]; subst.
    destruct (str_eqb_spec k0 k) as [->|Hne]; simpl.
    + now constructor.
    + constructor; [|now apply IH].
      intros Hin. apply (dict_keys_setitem r k v k0) in Hin.
      destruct Hin; [congruence | contradiction].
Qed.

Lemma dict_getitem_In (d : dict) (k v : str) :
  dict_getitem d k = Some v -> In (k, v) d.
Proof.
  induction d as [|[k0 v0] r IH]; simpl; [discriminate|].
  destruct (str_eqb_spec k0 k) as [->|Hne].
  - intros [= ->]. now left.
  - intros H. right. now apply IH.
Qed.

Lemma dict_In_getitem (d : dict) (k v : str) :
  NoDup (dict_keys d) -> In (k, v) d -> dict_getitem d k = Some v.
Proof.
  unfold dict_keys. induction d as [|[k0 v0] r IH]; simpl; [tauto|].
  intros Hnd [[= -> ->]|Hin].
  - now destruct (str_eqb_spec k k).
  - inversion Hnd as [|? ? Hnin Hr]; subst.
    destruct (str_eqb_spec k0 k) as [->|Hne]; [|now apply IH].
    exfalso. apply Hnin. now apply (in_map fst) in Hin.
Qed.

Lemma dict_getitem_keys (d : dict) (k : str) :
  In k (dict_keys d) -> exists v, dict_getitem d k = Some v.
Proof.
  unfold dict_keys. induction d as [|[k0 v0] r IH]; simpl; [tauto|].
  intros [->|Hin].
  - exists v0. now destruct (str_eqb_spec k k).
  - destruct (str_eqb k0 k); [now exists v0 | now apply IH].
Qed.

Lemma find_last {A} (f : A -> bool) (l : list A) (x : A) :
  find f (l ++ [x])
  = match find f l with
    | Some y => Some y
    | None => if f x then Some x else None
    end.
Proof.
  induction l as [|y r IH]; simpl; [reflexivity|].
  now destruct (f y).
Qed.

Lemma find_map_inv {A B} (f : B -> bool) (g : A -> B) (l : list A) :
  find f (map g l) = option_map g (find (fun x => f (g x)) l).
Proof.
  induction l as [|x r IH]; simpl; [reflexivity|].
  now destruct (f (g x)).
Qed.

Section Comprehension.

Context {A : Type}.
Variables key value : A -> str.

(** The lemmas are about [{key(x): value(x) for x in xs}], started from
    [d0]: [fold_left] of [dict_setitem] over [xs]. *)

(** Among equal keys the last item wins. *)
Lemma comp_getitem (xs : list A) :
  forall d0 k,
    dict_getitem (fold_left (fun d x => dict_setitem d (key x) (value x)) xs
        d0) k
    = match find (fun x => str_eqb (key x) k) (rev xs) with
      | Some x => Some (value x)
      | None => dict_getitem d0 k
      end.
Proof.
  induction xs as [|x r IH]; intros d0 k; [reflexivity|].
  cbn [fold_left rev]. rewrite IH, find_last.
  destruct (find _ (rev r)); [reflexivity|].
  rewrite dict_getitem_setitem. now destruct (str_eqb (key x) k).
Qed.

Lemma comp_keys (xs : list A) :
  forall d0 k,
    In k (dict_keys (fold_left (fun d x => dict_setitem d (key x) (value x))
        xs d0)) <->
    In k (dict_keys d0) \/ In k (map key xs).
Proof.
  induction xs as [|x r IH]; intros d0 k; cbn [fold_left map].
  - simpl. tauto.
  - rewrite IH, dict_keys_setitem. simpl. intuition.
Qed.

Lemma comp_NoDup (xs : list A) :
  forall d0, NoDup (dict_keys d0) -> NoDup (dict_keys (fold_left (fun d x =>
      dict_setitem d (key x) (value x)) xs d0)).
Proof.
  induction xs as [|x r IH]; intros d0 H; cbn [fold_left]; [exact H|].
  now apply IH, dict_keys_setitem_NoDup.
Qed.

Lemma comp_fresh (xs : list A) :
  forall d0,
    NoDup (dict_keys d0 ++ map key xs) ->
    fold_left (fun d x => dict_setitem d (key x) (value x)) xs d0
    = d0 ++ map (fun x => (key x, value x)) xs.
Proof.
  induction xs as [|x r IH]; intros d0 H; cbn [fold_left map].
  - now rewrite app_nil_r.
  - rewrite dict_setitem_fresh.
    + rewrite IH; [now rewrite <- app_assoc|].
      unfold dict_keys. rewrite map_app, <- app_assoc. exact H.
    + intros Hin. apply NoDup_remove_2 in H. apply H.
      apply in_or_app. now left.
Qed.

End Comprehension.

(** *** [unique] and [sorted] *)

Lemma existsb_str_eqb (x : str) (l : list str) :
  existsb (str_eqb x) l = true <-> In x l.
Proof.
  rewrite existsb_exists. split.
  - intros (y & Hin & H). apply str_eqb_eq in H. now subst.
  - intros H. exists x. split; [exact H | now apply str_eqb_eq].
Qed.

Lemma unique_from_In (l : list str) :
  forall seen a, In a (unique_from seen l) <-> In a l /\ ~ In a seen.
Proof.
  induction l as [|x r IH]; intros seen a; simpl; [tauto|].
  destruct (existsb (str_eqb x) seen) eqn:E.
  - apply existsb_str_eqb in E. rewrite IH. intuition congruence.
  - assert (Hx : ~ In x seen)
      by (intros H; apply existsb_str_eqb in H; congruence).
    simpl. rewrite IH. simpl.
    destruct (list_eq_dec N.eq_dec x a) as [->|Hne]; intuition congruence.
Qed.

Lemma unique_from_NoDup (l : list str) :
  forall seen, NoDup (unique_from seen l).
Proof.
  induction l as [|x r IH]; intros seen; simpl; [constructor|].
  destruct (existsb (str_eqb x) seen); [apply IH|].
  constructor; [|apply IH].
  rewrite unique_from_In. simpl. tauto.
Qed.

Lemma unique_In (l : list str) (a : str) : In a (unique l) <-> In a l.
Proof. unfold unique. rewrite unique_from_In. simpl. tauto. Qed.

Lemma str_ltb_irrefl (a : str) : str_ltb a a = false.
Proof.
  induction a as [|x a IH]; simpl; [reflexivity|].
  now rewrite N.ltb_irrefl, N.eqb_refl, IH.
Qed.

Lemma str_ltb_cons (x y : N) (a b : str) :
  str_ltb (x :: a) (y :: b) = true <->
  (x < y)%N \/ x = y /\ str_ltb a b = true.
Proof.
  cbn [str_ltb].
  rewrite orb_true_iff, andb_true_iff, N.ltb_lt, N.eqb_eq. tauto.
Qed.

Lemma str_ltb_trans (a : str) :
  forall b c, str_ltb a b = true -> str_ltb b c = true ->
              str_ltb a c = true.
Proof.
  induction a as [|x a IH]; intros [|y b] [|z c] H1 H2;
    try discriminate; try reflexivity.
  apply str_ltb_cons in H1, H2. apply str_ltb_cons.
  destruct H1 as [H1|[-> H1]], H2 as [H2|[-> H2]].
  - left. lia.
  - now left.
  - now left.
  - right. split; [reflexivity|]. now apply (IH b c).
Qed.

Lemma str_ltb_asym (a b : str) :
  str_ltb a b = true -> str_ltb b a = false.
Proof.
  intros H. destruct (str_ltb b a) eqn:E; [|reflexivity].
  pose proof (str_ltb_trans a b a H E) as Hc.
  now rewrite str_ltb_irrefl in Hc.
Qed.

Lemma str_ltb_total (a : str) :
  forall b, str_ltb a b = false -> a <> b -> str_ltb b a = true.
Proof.
  induction a as [|x a IH]; intros [|y b] H Hne;
    try reflexivity; try discriminate; try congruence.
  apply str_ltb_cons.
  assert (Hn : ~ ((x < y)%N \/ x = y /\ str_ltb a b = true))
    by (rewrite <- str_ltb_cons; congruence).
  destruct (N.lt_trichotomy x y) as [Hlt|[->|Hgt]].
  - tauto.
  - right. split; [reflexivity|]. apply IH.
    + destruct (str_ltb a b); [tauto | reflexivity].
    + congruence.
  - now left.
Qed.

Lemma insort_perm (x : str) (l : list str) :
  Permutation (insort x l) (x :: l).
Proof.
  induction l as [|y r IH]; simpl; [reflexivity|].
  destruct (str_ltb y x); [|reflexivity].
  rewrite IH. apply perm_swap.
Qed.

Lemma sorted_perm (l : list str) : Permutation (sorted l) l.
Proof.
  induction l as [|x r IH]; simpl; [constructor|].
  now rewrite insort_perm, IH.
Qed.

(** [sorted] puts distinct strings in strictly increasing order. *)
Lemma insort_increasing (x : str) (l : list str) :
  StronglySorted (fun a b => str_ltb a b = true) l -> ~ In x l ->
  StronglySorted (fun a b => str_ltb a b = true) (insort x l).
Proof.
  induction 1 as [|y r Hr IH Hy]; intros Hx; simpl.
  - repeat constructor.
  - destruct (str_ltb y x) eqn:E.
    + constructor.
      * apply IH. intros Hin. apply Hx. now right.
      * rewrite Forall_forall in *. intros z Hz.
        apply (Permutation_in _ (insort_perm x r)) in Hz.
        destruct Hz as [<-|Hz]; [exact E | now apply Hy].
    + assert (Hxy : str_ltb x y = true).
      { apply str_ltb_total; [exact E|].
        intros ->. apply Hx. now left. }
      constructor; [now constructor|].
      constructor; [exact Hxy|].
      rewrite Forall_forall in *. intros z Hz.
      exact (str_ltb_trans x y z Hxy (Hy z Hz)).
Qed.

Lemma sorted_increasing (l : list str) :
  NoDup l -> StronglySorted (fun a b => str_ltb a b = true) (sorted l).
Proof.
  induction 1 as [|x r Hx Hr IH]; simpl; [constructor|].
  apply insort_increasing; [exact IH|].
  intros Hin. apply Hx. exact (Permutation_in _ (sorted_perm r) Hin).
Qed.

(** *** The reference *)

Lemma dict_getitem_map_in (g : str -> str) (ks : list str) (p : str) :
  In p ks -> dict_getitem (map (fun k => (k, g k)) ks) p = Some (g p).
Proof.
  induction ks as [|k r IH]; simpl; [tauto|].
  destruct (str_eqb_spec k p) as [->|Hne]; [reflexivity|].
  intros [H|H]; [congruence | now apply IH].
Qed.

Lemma dict_getitem_none (d : dict) (p : str) :
  ~ In p (dict_keys d) -> dict_getitem d p = None.
Proof.
  intros H. destruct (dict_getitem d p) as [v|] eqn:E; [|reflexivity].
  exfalso. apply H. apply dict_getitem_In in E.
  now apply (in_map fst) in E.
Qed.

Lemma NoDup_map_on {A B} (f : A -> B) (l : list A) :
  NoDup l ->
  (forall a b, In a l -> In b l -> f a = f b -> a = b) ->
  NoDup (map f l).
Proof.
  induction 1 as [|x r Hx Hr IH]; intros Hinj; simpl; constructor.
  - intros Hin. apply in_map_iff in Hin as (y & Hy & Hin).
    apply Hx. rewrite <- (Hinj y x); simpl; auto.
  - apply IH. intros a b Ha Hb. apply Hinj; now right.
Qed.

Section SaveFacts.

Variable humanize : str -> str.


Lemma reference_fold (ref : dict) (ks : list str) :
  forall d,
    (forall k, In k ks -> In k (dict_keys ref)) ->
    NoDup (dict_keys d ++ ks) ->
    fold_left
      (fun acc k =>
         match acc with
         | Some d =>
             match dict_getitem ref k with
             | Some v => Some (dict_setitem d k v)
             | None => None
             end
         | None => None
         end) ks (Some d)
    = Some (d ++ map (fun k => (k, match dict_getitem ref k with
                               | Some v => v
                               | None => []
                               end)) ks).
Proof.
  induction ks as [|k r IH]; intros d Hin Hnd; cbn [fold_left map].
  - now rewrite app_nil_r.
  - destruct (dict_getitem_keys ref k (Hin k (or_introl eq_refl)))
      as [v Hv].
    rewrite Hv, dict_setitem_fresh.
    + rewrite IH; [now rewrite <- app_assoc|auto with datatypes|].
      unfold dict_keys. rewrite map_app, <- app_assoc. exact Hnd.
    + intros H. apply NoDup_remove_2 in Hnd. apply Hnd.
      apply in_or_app. now left.
Qed.

(** [ref] maps a pseudonym to the last of the distinct authors that has
    it, and the result of [save] lists [ref] by sorted key. *)
Lemma anon_reference_shape (records : list record) :
  exists ref,
    NoDup (dict_keys ref) /\
    (forall p,
        dict_getitem ref p
        = find (fun a => str_eqb (humanize a) p)
            (rev (unique (map author_of records)))) /\
    (forall p,
        In p (dict_keys ref) <->
        In p (map humanize (unique (map author_of records)))) /\
    anon_reference humanize records
    = Some (map (fun k => (k, match dict_getitem ref k with
                               | Some v => v
                               | None => []
                               end)) (sorted (dict_keys ref))).
Proof.
  unfold anon_reference. cbv zeta.
  set (authors := unique (map author_of records)).
  assert (Hanon : fold_left (fun d k => dict_setitem d k (humanize k))
                    authors []
                  = map (fun k => (k, humanize k)) authors).
  { rewrite (comp_fresh (fun k => k) humanize authors []);
      [reflexivity|].
    simpl. rewrite map_id. apply unique_from_NoDup. }
  rewrite Hanon.
  set (anon := map (fun k => (k, humanize k)) authors).
  set (ref := fold_left (fun d kv => dict_setitem d (snd kv) (fst kv))
                anon []).
  assert (Hnd : NoDup (dict_keys ref))
    by (apply (comp_NoDup snd fst anon []); constructor).
  exists ref. split; [exact Hnd|]. split; [|split].
  - intros p. unfold ref. rewrite (comp_getitem snd fst anon [] p).
    unfold anon. rewrite <- map_rev, find_map_inv. simpl.
    now destruct (find _ (rev authors)).
  - intros p. unfold ref. rewrite (comp_keys snd fst anon [] p).
    unfold anon. rewrite map_map. simpl. tauto.
  - apply (reference_fold ref (sorted (dict_keys ref)) []).
    + intros k Hk. exact (Permutation_in _ (sorted_perm _) Hk).
    + simpl. exact (Permutation_NoDup
                      (Permutation_sym (sorted_perm _)) Hnd).
Qed.

Lemma anon_reference_getitem (records : list record) :
  exists out,
    anon_reference humanize records = Some out /\
    NoDup (dict_keys out) /\
    forall p,
      dict_getitem out p
      = find (fun a => str_eqb (humanize a) p)
          (rev (unique (map author_of records))).
Proof.
  destruct (anon_reference_shape records) as (ref & Hnd & Hget & _ & Hout).
  eexists. split; [exact Hout|]. split.
  - unfold dict_keys. rewrite map_map. simpl. rewrite map_id.
    exact (Permutation_NoDup (Permutation_sym (sorted_perm _)) Hnd).
  - intros p. rewrite <- Hget.
    destruct (in_dec (list_eq_dec N.eq_dec) p (dict_keys ref)) as [Hin|Hn].
    + rewrite dict_getitem_map_in
        by exact (Permutation_in _ (Permutation_sym (sorted_perm _)) Hin).
      now destruct (dict_getitem_keys ref p Hin) as [v ->].
    + rewrite (dict_getitem_none ref p Hn).
      apply dict_getitem_none. unfold dict_keys.
      rewrite map_map. simpl. rewrite map_id.
      intros H. apply Hn. exact (Permutation_in _ (sorted_perm _) H).
Qed.

Lemma anon_reference_entry (records : list record) (out : dict) (p a : str) :
  anon_reference humanize records = Some out -> In (p, a) out ->
  humanize a = p /\ In a (map author_of records).
Proof.
  intros Hout Hin.
  destruct (anon_reference_getitem records) as (out' & E & Hnd & Hget).
  rewrite E in Hout. injection Hout as ->.
  apply (dict_In_getitem out p a Hnd) in Hin. rewrite Hget in Hin.
  apply find_some in Hin as [Hin Heq].
  apply str_eqb_eq in Heq. split; [exact Heq|].
  rewrite <- in_rev in Hin. exact (proj1 (unique_In _ _) Hin).
Qed.

(** X14: [save] always builds its reference (no key is missing when it
    is read back), and the keys of the reference are in strictly
    increasing code-point order. *)
Theorem anon_reference_sorted (records : list record) :
  exists out,
    anon_reference humanize records = Some out /\
    StronglySorted (fun a b => str_ltb a b = true) (dict_keys out).
Proof.
  destruct (anon_reference_shape records) as (ref & Hnd & _ & _ & Hout).
  eexists. split; [exact Hout|].
  unfold dict_keys at 1. rewrite map_map. simpl. rewrite map_id.
  now apply sorted_increasing.
Qed.

(** X15: every entry of the reference maps the pseudonym of an author of
    the records to that author. *)
Theorem anon_reference_sound (records : list record) (out : dict)
        (p a : str) :
  anon_reference humanize records = Some out -> In (p, a) out ->
  humanize a = p /\ In a (map author_of records).
Proof. apply anon_reference_entry. Qed.

(** X16: looking a pseudonym up in the reference gives the last, in order
    of first appearance in the records, of the authors that have this
    pseudonym, and fails when no author has it. *)
Theorem anon_reference_lookup (records : list record) :
  exists out,
    anon_reference humanize records = Some out /\
    forall p,
      dict_getitem out p
      = find (fun a => str_eqb (humanize a) p)
          (rev (unique (map author_of records))).
Proof.
  destruct (anon_reference_getitem records) as (out & E & _ & Hget).
  now exists out.
Qed.

(** X17: when no two authors of the records share a pseudonym, the
    reference has one entry for each distinct author and gives every
    author back from its pseudonym. *)
Theorem anon_reference_round_trip (records : list record) :
  (forall a b, In a (map author_of records) ->
               In b (map author_of records) ->
               humanize a = humanize b -> a = b) ->
  exists out,
    anon_reference humanize records = Some out /\
    List.length out = List.length (unique (map author_of records)) /\
    forall a, In a (map author_of records) ->
              dict_getitem out (humanize a) = Some a.
Proof.
  intros Hinj.
  destruct (anon_reference_shape records) as (ref & Hnd & _ & Hkeys & Hout).
  destruct (anon_reference_getitem records) as (out & E & _ & Hget).
  exists out. split; [exact E|]. split.
  - rewrite Hout in E. injection E as <-.
    rewrite length_map, (Permutation_length (sorted_perm _)).
    rewrite <- (length_map humanize (unique (map author_of records))).
    apply Permutation_length, NoDup_Permutation; [exact Hnd | | exact Hkeys].
    apply NoDup_map_on; [apply unique_from_NoDup|].
    intros a b Ha Hb. apply Hinj; now apply (proj1 (unique_In _ _)).
  - intros a Ha. rewrite Hget.
    destruct (find (fun b => str_eqb (humanize b) (humanize a))
                (rev (unique (map author_of records)))) as [b|] eqn:Ef.
    + apply find_some in Ef as [Hb Heq]. apply str_eqb_eq in Heq.
      f_equal. apply Hinj; trivial.
      rewrite <- in_rev in Hb. exact (proj1 (unique_In _ _) Hb).
    + assert (Hin : In a (rev (unique (map author_of records))))
        by (rewrite <- in_rev; exact (proj2 (unique_In _ _) Ha)).
      pose proof (find_none _ _ Ef a Hin) as Hf. cbv beta in Hf.
      now destruct (str_eqb_spec (humanize a) (humanize a)).
Qed.

(** X18: two different authors with the same pseudonym are not both in
    the reference: one of them cannot be found back. *)
Theorem anon_reference_collision (records : list record) (out : dict)
        (a1 a2 : str) :
  anon_reference humanize records = Some out ->
  a1 <> a2 -> humanize a1 = humanize a2 ->
  ~ (In (humanize a1, a1) out /\ In (humanize a2, a2) out).
Proof.
  intros Hout Hne Heq [H1 H2].
  destruct (anon_reference_getitem records) as (out' & E & Hnd & _).
  rewrite E in Hout. injection Hout as ->.
  apply (dict_In_getitem out _ _ Hnd) in H1, H2.
  rewrite Heq in H1. congruence.
Qed.

End SaveFacts.

Lemma anon_reference_sound_witness :
  let records := [(600%Z, of_string "Al", of_string "Hi");
                  (601%Z, of_string "Bo", of_string "Yo");
                  (602%Z, of_string "Al", of_string "Ho")] in
  let out := [(of_string "A", of_string "Al");
              (of_string "B", of_string "Bo")] in
  anon_reference initial records = Some out /\
  initial (of_string "Bo") = of_string "B" /\
  In (of_string "Bo") (map author_of records).
Proof.
  intros records out. split; [reflexivity|].
  apply (anon_reference_sound initial records out).
  - reflexivity.
  - right. now left.
Defined.

Lemma anon_reference_round_trip_witness :
  let records := [(600%Z, of_string "Bo", of_string "Hi");
                  (601%Z, of_string "Al", of_string "Yo");
                  (602%Z, of_string "Bo", of_string "Ho")] in
  exists out,
    anon_reference initial records = Some out /\
    List.length out = 2%nat /\
    forall a, In a (map author_of records) ->
              dict_getitem out (initial a) = Some a.
Proof.
  intros records.
  apply (anon_reference_round_trip initial records).
  intros a b Ha Hb. simpl in Ha, Hb.
  destruct Ha as [<-|[<-|[<-|[]]]], Hb as [<-|[<-|[<-|[]]]];
    intros H; try reflexivity; vm_compute in H; discriminate H.
Defined.

Lemma anon_reference_collision_witness :
  let records := [(600%Z, of_string "Al", of_string "Hi");
                  (601%Z, of_string "Ann", of_string "Yo")] in
  let out := [(of_string "A", of_string "Ann")] in
  anon_reference initial records = Some out /\
  ~ (In (initial (of_string "Al"), of_string "Al") out /\
     In (initial (of_string "Ann"), of_string "Ann") out).
Proof.
  intros records out. split; [reflexivity|].
  apply (anon_reference_collision initial records out).
  - reflexivity.
  - vm_compute. discriminate.
  - reflexivity.
Defined.

(** ** [__call__]: from the lines to the reference *)

Section CallFacts.

Variable regex : Type.
Variables re_match re_search : regex -> str -> option str.
Variable strptime : str -> str -> option datetime.
Variable nfkc : str -> str.
Variable humanize : str -> str.
Variable config : settings.PreprocessConfig regex.

Local Abbreviation authorreg := (settings.author (settings.regexes config)).

(** X19: every entry of the reference that [__call__] has [save] build
    from the records of [process] maps a pseudonym to an author that is
    the normalized, trimmed author capture of some line of the input. *)
Theorem call_reference_normalized (lines : list str) (out : dict) :
  call regex re_match re_search strptime nfkc humanize config lines
  = Ok (Some out) ->
  forall p a,
    In (p, a) out ->
    humanize a = p /\
    exists line a_,
      In line lines /\ re_search authorreg line = Some a_ /\
      a = normalize_str nfkc (strip a_).
Proof.
  intros Hcall p a Hin.
  destruct (process_run regex re_match re_search strptime nfkc config lines)
    as (st & Hrun & _ & Hp).
  unfold call in Hcall. rewrite Hp in Hcall. cbn [bind fst] in Hcall.
  injection Hcall as E.
  destruct (anon_reference_entry humanize (records st) out p a E Hin)
    as [Hh Ha].
  split; [exact Hh|].
  apply in_map_iff in Ha as (r & <- & Hr).
  pose proof (run_authors regex re_match re_search strptime nfkc config
                (fun a => exists line a_,
                     In line lines /\
                     re_search authorreg line = Some a_ /\
                     a = normalize_str nfkc (strip a_))
                lines
                ltac:(intros line a_ Hl Hs; now exists line, a_)
                locals0 st synced_locals0
                ltac:(discriminate) ltac:(constructor) Hrun) as HF.
  rewrite Forall_forall in HF. exact (HF r Hr).
Qed.

End CallFacts.

Lemma call_reference_normalized_witness :
  let lines := [of_string "1000 - ~ Al : Hi"; of_string "1001 - Bo: Yo";
                of_string "1002 - Al: Ho"] in
  let out := [(of_string "A", of_string "Al");
              (of_string "B", of_string "Bo")] in
  call demo.regex demo.re_match demo.re_search demo.strptime demo.nfkc
    initial (demo.config []) lines = Ok (Some out) /\
  initial (of_string "Al") = of_string "A" /\
  exists line a_,
    In line lines /\
    demo.re_search demo.AUTHOR line = Some a_ /\
    of_string "Al" = normalize_str demo.nfkc (strip a_).
Proof.
  intros lines out. split; [reflexivity|].
  apply (call_reference_normalized demo.regex demo.re_match demo.re_search
           demo.strptime demo.nfkc initial (demo.config []) lines out).
  - reflexivity.
  - now left.
Defined.

(** ** [main.py]: the colours of the first bar chart *)

Lemma sorted_firstn (n : nat) (l : list Z) :
  StronglySorted Z.ge l -> StronglySorted Z.ge (firstn n l).
Proof.
  intros H. revert n. induction H as [|x r Hr IH Hx]; intros [|n]; simpl;
    try constructor; [apply IH|].
  rewrite Forall_forall in *. intros y Hy. apply Hx.
  rewrite <- (firstn_skipn n r). apply in_or_app. now left.
Qed.

Lemma colors_split (l : list Z) :
  StronglySorted Z.ge l ->
  let k := List.length (filter (fun x => (MSG_THRESHOLD <=? x)%Z) l) in
  map (fun x => if (x <? MSG_THRESHOLD)%Z then 0%Z else 1%Z) l
  = repeat 1%Z k ++ repeat 0%Z (List.length l - k) /\
  Forall (fun x => (MSG_THRESHOLD <= x)%Z) (firstn k l) /\
  Forall (fun x => (x < MSG_THRESHOLD)%Z) (skipn k l).
Proof.
  induction 1 as [|x r Hr IH Hx]; cbn zeta in *; [now repeat split|].
  cbn [filter map].
  destruct (MSG_THRESHOLD <=? x)%Z eqn:E.
  - apply Z.leb_le in E. destruct IH as (IH1 & IH2 & IH3).
    replace (x <? MSG_THRESHOLD)%Z with false by (symmetry; lia).
    cbn [List.length firstn skipn repeat app Nat.sub].
    rewrite IH1. repeat split; trivial. now constructor.
  - apply Z.leb_gt in E.
    assert (Hlow : Forall (fun y => (y < MSG_THRESHOLD)%Z) r).
    { revert Hx. apply Forall_impl. intros y Hy. lia. }
    assert (Hnone : filter (fun x => (MSG_THRESHOLD <=? x)%Z) r = []).
    { clear -Hlow. induction Hlow as [|y r Hy Hr IH]; [reflexivity|].
      cbn [filter]. now replace (MSG_THRESHOLD <=? y)%Z with false
        by (symmetry; lia). }
    replace (x <? MSG_THRESHOLD)%Z with true by (symmetry; lia).
    rewrite Hnone in *. cbn [List.length firstn skipn repeat app Nat.sub] in *.
    destruct IH as (IH1 & _ & _). rewrite Nat.sub_0_r in IH1.
    rewrite IH1. repeat split; [constructor | now constructor].
Qed.

(** X20: on message counts sorted from high to low, as [sort_values]
    leaves them, the colour list of the first chart is a run of 1 followed
    by a run of 0, one colour for each of the first [TOPK] counts; the 1
    are as many as the counts among these that reach [MSG_THRESHOLD], and
    they stand on exactly those counts, which come first. *)
Theorem colors_highlight_first (message : list Z) :
  StronglySorted Z.ge message ->
  let top := firstn TOPK message in
  let k := List.length (filter (fun x => (MSG_THRESHOLD <=? x)%Z) top) in
  colors message = repeat 1%Z k ++ repeat 0%Z (List.length top - k) /\
  List.length top = Nat.min TOPK (List.length message) /\
  Forall (fun x => (MSG_THRESHOLD <= x)%Z) (firstn k top) /\
  Forall (fun x => (x < MSG_THRESHOLD)%Z) (skipn k top).
Proof.
  intros H top k.
  destruct (colors_split top (sorted_firstn TOPK message H))
    as (H1 & H2 & H3).
  split; [exact H1|]. split; [apply length_firstn|]. now split.
Qed.

Lemma colors_highlight_first_witness :
  StronglySorted Z.ge [900; 700; 699; 12]%Z /\
  colors [900; 700; 699; 12]%Z = repeat 1%Z 2 ++ repeat 0%Z (4 - 2).
Proof.
  assert (H : StronglySorted Z.ge [900; 700; 699; 12]%Z).
  { repeat (apply SSorted_cons;
            [|repeat (apply Forall_cons; [lia|]); apply Forall_nil]).
    apply SSorted_nil. }
  split; [exact H|].
  exact (proj1 (colors_highlight_first _ H)).
Defined.

(** ** [process] on match objects *)

Section ProcessRawFacts.

Variable regex : Type.
Variables re_match re_search : regex -> str -> option groups.
Variable strptime : str -> str -> option datetime.
Variable nfkc : str -> str.
Variable config : settings.PreprocessConfig regex.

Local Abbreviation tsreg := (settings.timestamp (settings.regexes config)).
Local Abbreviation messagereg := (settings.message (settings.regexes config)).
Local Abbreviation authorreg := (settings.author (settings.regexes config)).



Lemma run_raw_app (l1 l2 : list str) :
  forall st,
    run_raw regex re_match re_search strptime nfkc config st (l1 ++ l2)
    = (st' <- run_raw regex re_match re_search strptime nfkc config st l1 ;;
       run_raw regex re_match re_search strptime nfkc config st' l2).
Proof.
  induction l1 as [|line l1 IH]; intros st; cbn [app run_raw];
    [reflexivity|].
  destruct (step_raw _ _ _ _ _ _ st line); cbn [bind];
    [apply IH | reflexivity].
Qed.


(** X21: a line on which the timestamp pattern matches without a first
    group that took part ends [process] with an exception that the
    [except ValueError] around [strptime] does not catch: [IndexError]
    for a match without groups, [TypeError] for a group that is [None];
    the records built so far are lost. *)
Theorem process_group_error (pre rest : list str) (line : str) R app :
  process_raw regex re_match re_search strptime nfkc config pre
  = Ok (R, app) ->
  (re_match tsreg line = Some [] ->
   process_raw regex re_match re_search strptime nfkc config
     (pre ++ line :: rest) = Raise IndexError) /\
  (forall gs,
      re_match tsreg line = Some (None :: gs) ->
      process_raw regex re_match re_search strptime nfkc config
        (pre ++ line :: rest) = Raise TypeError).
Proof.
  unfold process_raw. intros Hpre.
  destruct (run_raw regex re_match re_search strptime nfkc config
              locals0 pre) as [st|e] eqn:E; [|discriminate].
  split; [intros Hm | intros gs Hm];
    rewrite run_raw_app, E; cbn [bind run_raw]; unfold step_raw;
    now rewrite Hm.
Qed.

End ProcessRawFacts.


Lemma process_group_error_witness :
  let no_group := fun (r : demo.regex) (s : str) =>
                    match demo.re_match r s with
                    | Some _ => Some []
                    | None => None
                    end in
  process_raw demo.regex no_group (one_group demo.re_search) demo.strptime
    demo.nfkc (demo.config []) [of_string "noise"] = Ok ([], []) /\
  no_group demo.TIMESTAMP (of_string "1000 - Al: Hi") = Some [] /\
  process_raw demo.regex no_group (one_group demo.re_search) demo.strptime
    demo.nfkc (demo.config [])
    ([of_string "noise"] ++ of_string "1000 - Al: Hi" :: [of_string "x"])
  = Raise IndexError.
Proof.
  intros no_group. split; [reflexivity|]. split; [reflexivity|].
  apply (process_group_error demo.regex no_group
           (one_group demo.re_search) demo.strptime demo.nfkc
           (demo.config []) [of_string "noise"] [of_string "x"]
           (of_string "1000 - Al: Hi") [] []);
    reflexivity.
Defined.
